(** * CUR sample selection (skcosmo/sample_selection/simple_cur.py)

    A shallow embedding of the [CUR] selector and of the objects it works
    on.  Floating-point values are modelled by exact rationals [Q]; numpy
    arrays by lists of rows; Python objects that are shared by reference
    (the caller's matrices, the working copies, random generators) live in
    an explicit store.  The randomized decomposition and the two
    orthogonalizers are collaborators of the class and are taken as
    parameters together with their shape contracts. *)

From stdpp Require Import base option list gmap.
From Stdlib Require Import QArith Qround Lqa.

Close Scope Q_scope.

Set Default Proof Using "Type*".

(** ** Exceptions and results *)

Inductive exn : Type :=
| ValueError
| IndexError
| LinAlgError.

Inductive result (A : Type) : Type :=
| Ok (a : A)
| Raise (e : exn).
Arguments Ok {A} a.
Arguments Raise {A} e.

Definition is_ok {A} (r : result A) : bool :=
  match r with Ok _ => true | Raise _ => false end.

(** ** numpy arrays *)

(** A complex scalar, as [randomized_svd] may return in degenerate cases. *)
Record complex : Type := Complex { re : Q; im : Q }.

(** A two-dimensional array: its rows, and its second dimension (kept
    explicitly so that an array without rows still has a shape). *)
Record ndarray (A : Type) : Type := NDArray { rows : list (list A); ncols : nat }.
Arguments NDArray {A} rows ncols.
Arguments rows {A} _.
Arguments ncols {A} _.

(** [len(a)], that is [a.shape[0]]. *)
Definition len {A} (a : ndarray A) : nat := length (rows a).

#[global] Instance ndarray_inhabited {A} : Inhabited (ndarray A) :=
  populate (NDArray [] 0).

(** [a.T] *)
Definition T {A} (a : ndarray A) : ndarray A :=
  NDArray (map (λ j, omap (λ r : list A, r !! j) (rows a)) (seq 0 (ncols a)))
          (len a).

(** [l[mask]] for a boolean mask of the right length. *)
Fixpoint select_mask {A} (mask : list bool) (l : list A) : list A :=
  match mask, l with
  | b :: mask', x :: l' =>
      if b then x :: select_mask mask' l' else select_mask mask' l'
  | _, _ => []
  end.

Definition count_true (mask : list bool) : nat :=
  length (filter (λ b, b = true) mask).

(** [a[mask]] on the first axis; numpy raises [IndexError] when the mask
    does not have the length of that axis. *)
Definition getitem_mask {A} (a : ndarray A) (mask : list bool)
  : result (ndarray A) :=
  if decide (length mask = len a)
  then Ok (NDArray (select_mask mask (rows a)) (ncols a))
  else Raise IndexError.

(** Writes [vals], in order, at the positions where [mask] holds. *)
Fixpoint scatter_mask {A} (mask : list bool) (vals : list A) (l : list A)
  : list A :=
  match mask, l with
  | b :: mask', x :: l' =>
      if b then
        match vals with
        | v :: vals' => v :: scatter_mask mask' vals' l'
        | [] => x :: scatter_mask mask' [] l'
        end
      else x :: scatter_mask mask' vals l'
  | _, _ => l
  end.

(** [a[mask] = vals] on a one-dimensional array: [IndexError] for a mask
    of the wrong length; [vals] must have as many entries as the mask
    selects, or a single entry, which is broadcast; [ValueError]
    otherwise. *)
Definition setitem_mask {A} (a : list A) (mask : list bool) (vals : list A)
  : result (list A) :=
  if decide (length mask = length a) then
    if decide (length vals = count_true mask)
    then Ok (scatter_mask mask vals a)
    else match vals with
         | [v] => Ok (scatter_mask mask (replicate (count_true mask) v) a)
         | _ => Raise ValueError
         end
  else Raise IndexError.

(** [a[i] = v] for a non-negative index; [IndexError] out of range. *)
Definition setitem {A} (a : list A) (i : nat) (v : A) : result (list A) :=
  if decide (i < length a) then Ok (<[i := v]> a) else Raise IndexError.

(** [a[i]] on the first axis. *)
Definition getitem {A} (a : ndarray A) (i : nat) : result (list A) :=
  match rows a !! i with
  | Some r => Ok r
  | None => Raise IndexError
  end.

(** [l[:stop]]: a negative [stop] counts from the end. *)
Definition slice_to {A} (stop : Z) (l : list A) : list A :=
  if (stop <? 0)%Z
  then take (length l - Z.to_nat (- stop)) l
  else take (Z.to_nat stop) l.

(** [a[:, :stop]] *)
Definition slice_cols {A} (a : ndarray A) (stop : Z) : ndarray A :=
  NDArray (map (slice_to stop) (rows a))
          (length (slice_to stop (replicate (ncols a) ()))).

(** [np.real(a)] *)
Definition np_real (a : ndarray complex) : ndarray Q :=
  NDArray (map (map re) (rows a)) (ncols a).

(** [a ** 2.0] *)
Definition square (a : ndarray Q) : ndarray Q :=
  NDArray (map (map (λ x, x ^ 2)%Q) (rows a)) (ncols a).

(** [a.sum(axis=1)] *)
Definition sum_axis1 (a : ndarray Q) : list Q :=
  map (foldl Qplus 0%Q) (rows a).

(** The literal [1e-12]. *)
Definition tol_1e_12 : Q := (1 # 1000000000000)%Q.

(** ** Configuration values *)

(** [n_samples_to_select]: an absolute number or a fraction. *)
Inductive count : Type :=
| Absolute (n : Z)
| Fraction (q : Q).

(** [iterated_power]: an integer or ['auto']. *)
Inductive power : Type :=
| auto
| iterations (n : Z).

(** References into the store. *)
Definition loc : Type := nat.

(** [random_state]: [None], an integer seed, or a [RandomState] instance
    (a reference to a generator object). *)
Inductive seed : Type :=
| SeedNone
| SeedInt (n : Z)
| SeedInstance (g : loc).

(** ** Collaborators

    [randomized_svd] and [RandomState] come from scikit-learn and numpy;
    [X_orthogonalizer] and [Y_sample_orthogonalizer] come from the
    package's [utils], which is not part of the sources at hand.  Optional
    arguments that a call leaves out are [None]. *)

Class Collaborators : Type := {
  (** the state of a [numpy.random.RandomState] *)
  rng : Type;
  (** [numpy.random.RandomState(seed)] *)
  RandomState : Z → rng;
  (** [randomized_svd(M, n_components, n_iter, flip_sign, random_state)]:
      the left singular vectors, and the generator state it leaves *)
  randomized_svd :
    ndarray Q → Z → power → bool → rng → result (ndarray complex * rng);
  (** [X_orthogonalizer(x1, c, x2, tol)] *)
  X_orthogonalizer :
    ndarray Q → option nat → option (ndarray Q) → option Q →
    result (ndarray Q);
  (** [Y_sample_orthogonalizer(y, X, y_ref, X_ref, tol)] *)
  Y_sample_orthogonalizer :
    ndarray Q → ndarray Q → option (ndarray Q) → ndarray Q → Q →
    result (ndarray Q)
}.

(** The shape contracts of the collaborators: the decomposition returns
    one row of [U] per row of its input, and the orthogonalizers return
    arrays shaped like their first argument. *)
Class CollaboratorsShape `{Collaborators} : Prop := {
  randomized_svd_len M n_components n_iter flip_sign s U s' :
    randomized_svd M n_components n_iter flip_sign s = Ok (U, s') →
    len U = len M;
  X_orthogonalizer_shape x1 c x2 tol r :
    X_orthogonalizer x1 c x2 tol = Ok r →
    len r = len x1 ∧ ncols r = ncols x1;
  Y_sample_orthogonalizer_len y X y_ref X_ref tol r :
    Y_sample_orthogonalizer y X y_ref X_ref tol = Ok r →
    len r = len y
}.

(** ** The store and the computations over it *)

Section Store.
Context `{Collaborators}.

#[global] Instance rng_inhabited : Inhabited rng := populate (RandomState 0).

(** The arrays that are shared by reference, numpy's global generator
    ([np.random.mtrand._rand]) and the generator objects. *)
Record world : Type := World {
  heap : gmap loc (ndarray Q);
  np_random : rng;
  generators : gmap loc rng
}.

Definition M (A : Type) : Type := world → result (A * world).

#[global] Instance M_ret : MRet M := λ A a w, Ok (a, w).
#[global] Instance M_bind : MBind M := λ A B f m w,
  match m w with
  | Ok (a, w') => f a w'
  | Raise e => Raise e
  end.

Definition lift {A} (r : result A) : M A := λ w,
  match r with
  | Ok a => Ok (a, w)
  | Raise e => Raise e
  end.

(** A new array object. *)
Definition alloc (a : ndarray Q) : M loc := λ w,
  let l := fresh (dom (heap w)) in
  Ok (l, World (<[l := a]> (heap w)) (np_random w) (generators w)).

(** The array a reference denotes (a reference always denotes one). *)
Definition deref (l : loc) : M (ndarray Q) := λ w, Ok (heap w !!! l, w).

Definition deref_opt (l : option loc) : M (option (ndarray Q)) :=
  match l with
  | Some l => a ← deref l; mret (Some a)
  | None => mret None
  end.

(** [a.copy()] *)
Definition copy (l : loc) : M loc := a ← deref l; alloc a.

(** What [check_random_state] returns: the global generator, a new
    generator, or the instance it was given. *)
Inductive generator : Type :=
| GlobalGenerator
| NewGenerator (s : rng)
| InstanceGenerator (g : loc).

(** [sklearn.utils.check_random_state(seed)]: for an integer it builds
    [numpy.random.RandomState(seed)], which raises [ValueError] unless
    [0 <= seed <= 2**32 - 1]. *)
Definition check_random_state (s : seed) : result generator :=
  match s with
  | SeedNone => Ok GlobalGenerator
  | SeedInt n =>
      if decide (0 ≤ n < 2 ^ 32)%Z
      then Ok (NewGenerator (RandomState n))
      else Raise ValueError
  | SeedInstance g => Ok (InstanceGenerator g)
  end.

Definition generator_state (g : generator) (w : world) : rng :=
  match g with
  | GlobalGenerator => np_random w
  | NewGenerator s => s
  | InstanceGenerator l => generators w !!! l
  end.

Definition set_generator_state (g : generator) (s : rng) (w : world) : world :=
  match g with
  | GlobalGenerator => World (heap w) s (generators w)
  | NewGenerator _ => w
  | InstanceGenerator l => World (heap w) (np_random w) (<[l := s]> (generators w))
  end.

(** A call of [randomized_svd] with a generator object: the draws advance
    the object's state. *)
Definition call_randomized_svd (X : ndarray Q) (n_components : Z)
    (n_iter : power) (flip_sign : bool) (random_state : generator)
  : M (ndarray complex) := λ w,
  match randomized_svd X n_components n_iter flip_sign
                       (generator_state random_state w) with
  | Ok (U, s') => Ok (U, set_generator_state random_state s' w)
  | Raise e => Raise e
  end.

End Store.

(** ** The selector object

    The attributes of a [CUR] instance.  The attributes set by the base
    class are grouped in records of their own, which the records of the
    derived class include. *)

(** What [GreedySelector.__init__] keeps. *)
Record greedy_params : Type := GreedyParams {
  n_samples_to_select : option count;
  progress_bar : bool;
  score_threshold : option Q
}.

(** The bookkeeping of the skeleton during a fit. *)
Record greedy_state : Type := GreedyState {
  eligible_ : list bool;
  X_selected_ : ndarray Q;
  y_selected_ : option (ndarray Q);
  selected_idx_ : list nat;
  n_selected_ : nat
}.

(** A constructed, unfitted [CUR]. *)
Record params : Type := Params {
  params_super :> greedy_params;
  k : Z;
  iterative : bool;
  iterated_power : power;
  random_state : seed
}.

(** A [CUR] during and after a fit. *)
Record selector : Type := Selector {
  selector_params :> params;
  selector_super :> greedy_state;
  X_current : loc;
  y_current : option loc;
  pi_ : list Q
}.

Definition append_row {A} (a : ndarray A) (r : list A) : ndarray A :=
  NDArray (rows a ++ [r]) (ncols a).

(** ** The greedy-selection skeleton *)

Module GreedySelector.
Section WithCollaborators.
Context `{Collaborators}.

(** Modelled from the spec: the constructor of the skeleton (the module
    [_greedy] is not part of the sources).  It keeps the target count, the
    progress option and the score threshold it is given. *)
Definition __init__ (n_samples_to_select : option count) (progress_bar : bool)
    (score_thresh_to_select : option Q) : greedy_params :=
  GreedyParams n_samples_to_select progress_bar score_thresh_to_select.

(** Modelled from the spec: fresh initialization of the skeleton's
    bookkeeping (missing: [GreedySelector._init_greedy_search]): every
    sample is eligible and nothing is selected. *)
Definition _init_greedy_search (X : loc) (y : option loc) (n_to_select : nat)
  : M greedy_state :=
  Xv ← deref X;
  yv ← deref_opt y;
  mret (GreedyState (replicate (len Xv) true)
                    (NDArray [] (ncols Xv))
                    ((λ a : ndarray Q, NDArray [] (ncols a)) <$> yv)
                    [] 0).

(** Modelled from the spec: continuation keeps the bookkeeping of the
    earlier stage (missing: [GreedySelector._continue_greedy_search]). *)
Definition _continue_greedy_search (self : greedy_state) (X : loc)
    (y : option loc) (n_to_select : nat) : M greedy_state :=
  mret self.

(** Modelled from the spec: the skeleton's post-selection update (missing:
    [GreedySelector._update_post_selection]): the selected row and target
    row are appended to the accumulators, the index to the index list, the
    counter is incremented and the sample stops being eligible. *)
Definition _update_post_selection (self : greedy_state) (X : loc)
    (y : option loc) (last_selected : nat) : M greedy_state :=
  Xv ← deref X;
  row ← lift (getitem Xv last_selected);
  y_selected ← match y with
               | Some y =>
                   yv ← deref y;
                   y_row ← lift (getitem yv last_selected);
                   mret (Some (append_row
                                 (default (NDArray [] (ncols yv)) (y_selected_ self))
                                 y_row))
               | None => mret (y_selected_ self)
               end;
  eligible ← lift (setitem (eligible_ self) last_selected false);
  mret (GreedyState eligible
                    (append_row (X_selected_ self) row)
                    y_selected
                    (selected_idx_ self ++ [last_selected])
                    (S (n_selected_ self))).

(** Modelled from the spec: the best-scoring eligible sample and its score
    (missing: the skeleton's selection step); among equal scores the first
    index wins. *)
Fixpoint argmax_eligible (scores : list Q) (eligible : list bool) (i : nat)
    (best : option (nat * Q)) : option (nat * Q) :=
  match scores, eligible with
  | s :: scores', e :: eligible' =>
      argmax_eligible scores' eligible' (S i)
        (if e then
           match best with
           | Some (_, b) => if Qle_bool s b then best else Some (i, s)
           | None => Some (i, s)
           end
         else best)
  | _, _ => best
  end.

(** Modelled from the spec: the stop rule of the skeleton: no sample is
    picked once no eligible sample is left or, if a score threshold is
    configured, once the maximum remaining score is at or below it. *)
Definition best_candidate (self : greedy_params) (scores : list Q)
    (eligible : list bool) : option nat :=
  match argmax_eligible scores eligible 0 None with
  | Some (i, s) =>
      match score_threshold self with
      | Some t => if Qle_bool s t then None else Some i
      | None => Some i
      end
  | None => None
  end.

(** The hooks a selector supplies to the skeleton. *)
Record hooks : Type := Hooks {
  hook_init : params → loc → option loc → nat → M selector;
  hook_continue : selector → loc → option loc → nat → M selector;
  hook_score : selector → loc → option loc → list Q;
  hook_update : selector → loc → option loc → nat → M selector
}.

(** Modelled from the spec: the selection loop (missing: the loop of
    [GreedySelector.fit]): score, pick the best eligible sample unless the
    stop rule applies, notify the selector. *)
Fixpoint greedy_loop (h : hooks) (n_iterations : nat) (self : selector)
    (X : loc) (y : option loc) : M selector :=
  match n_iterations with
  | O => mret self
  | S n =>
      match best_candidate self (hook_score h self X y) (eligible_ self) with
      | Some i =>
          self' ← hook_update h self X y i;
          greedy_loop h n self' X y
      | None => mret self
      end
  end.

(** Modelled from the spec: the number of samples to select: half of the
    samples by default, an absolute number that may not exceed the sample
    count, or a fraction strictly between 0 and 1. *)
Definition n_to_select (self : greedy_params) (n_samples : nat) : result nat :=
  match n_samples_to_select self with
  | None => Ok (n_samples / 2)
  | Some (Absolute n) =>
      if decide (0 < n ≤ Z.of_nat n_samples)%Z
      then Ok (Z.to_nat n) else Raise ValueError
  | Some (Fraction q) =>
      if negb (Qle_bool q 0) && negb (Qle_bool 1 q)
      then Ok (Z.to_nat (Qfloor (q * inject_Z (Z.of_nat n_samples))))
      else Raise ValueError
  end.

(** Modelled from the spec: a target must have one row per sample. *)
Definition check_shape (Xv : ndarray Q) (yv : option (ndarray Q)) : result () :=
  match yv with
  | Some yv => if decide (len yv = len Xv) then Ok () else Raise ValueError
  | None => Ok ()
  end.

(** Modelled from the spec: a fresh fit (missing: [GreedySelector.fit]). *)
Definition fit (h : hooks) (self : params) (X : loc) (y : option loc)
  : M selector :=
  Xv ← deref X;
  yv ← deref_opt y;
  _ ← lift (check_shape Xv yv);
  n ← lift (n_to_select self (len Xv));
  self' ← hook_init h self X y n;
  greedy_loop h (n - n_selected_ (self' : selector)) self' X y.

(** Modelled from the spec: a continued fit on top of earlier selections
    (missing: [GreedySelector.fit] with a warm start). *)
Definition fit_warm_start (h : hooks) (self : selector) (X : loc)
    (y : option loc) : M selector :=
  Xv ← deref X;
  yv ← deref_opt y;
  _ ← lift (check_shape Xv yv);
  n ← lift (n_to_select self (len Xv));
  self' ← hook_continue h self X y n;
  greedy_loop h (n - n_selected_ (self' : selector)) self' X y.

End WithCollaborators.
End GreedySelector.

(** ** The CUR selector *)

Module CUR.
Section WithCollaborators.
Context `{Collaborators}.

(** [CUR.__init__]: the score threshold handed to the base class is
    [tolerance]; the argument [score_thresh_to_select] is not used. *)
Definition __init__ (n_samples_to_select : option count)
    (score_thresh_to_select : option Q) (iterative : bool) (k : Z)
    (tolerance : Q) (iterated_power : power) (random_state : seed)
    (progress_bar : bool) : params :=
  Params (GreedySelector.__init__ n_samples_to_select progress_bar
            (Some tolerance))
         k iterative iterated_power random_state.

(** [CUR.score] *)
Definition score (self : selector) (X : loc) (y : option loc) : list Q :=
  pi_ self.

(** [CUR._compute_pi] *)
Definition _compute_pi (self : params) (X : ndarray Q) (y : option (ndarray Q))
  : M (list Q) :=
  rs ← lift (check_random_state (random_state self));
  U ← call_randomized_svd X (k self) (iterated_power self) true rs;
  let new_pi := sum_axis1 (square (np_real (slice_cols U (k self)))) in
  mret new_pi.

(** [CUR._init_greedy_search] *)
Definition _init_greedy_search (self : params) (X : loc) (y : option loc)
    (n_to_select : nat) : M selector :=
  X_current ← copy X;
  y_current ← match y with
              | Some y => l ← copy y; mret (Some l)
              | None => mret None
              end;
  Xc ← deref X_current;
  yc ← deref_opt y_current;
  pi_ ← _compute_pi self Xc yc;
  super ← GreedySelector._init_greedy_search X y n_to_select;
  mret (Selector self super X_current y_current pi_).

(** [CUR._continue_greedy_search] *)
Definition _continue_greedy_search (self : selector) (X : loc) (y : option loc)
    (n_to_select : nat) : M selector :=
  Xv ← deref X;
  Xo ← lift (X_orthogonalizer (T Xv) None (Some (T (X_selected_ self))) None);
  X_current ← alloc (T Xo);
  y_current ← match y_current self with
              | Some yc =>
                  yv ← deref yc;
                  Xc ← deref X_current;
                  y' ← lift (Y_sample_orthogonalizer yv Xc (y_selected_ self)
                               (X_selected_ self) tol_1e_12);
                  l ← alloc y';
                  mret (Some l)
              | None => mret None
              end;
  Xc ← deref X_current;
  yc ← deref_opt y_current;
  pi_ ← _compute_pi self Xc yc;
  super ← GreedySelector._continue_greedy_search self X y n_to_select;
  mret (Selector self super X_current y_current pi_).

(** The branch [if self.iterative:] of [CUR._update_post_selection]. *)
Definition orthogonalize_and_rescore (self : selector) (last_selected : nat)
  : M selector :=
  y_current ← match y_current self with
              | Some yc =>
                  yv ← deref yc;
                  Xc ← deref (X_current self);
                  y' ← lift (Y_sample_orthogonalizer yv Xc (y_selected_ self)
                               (X_selected_ self) tol_1e_12);
                  l ← alloc y';
                  mret (Some l)
              | None => mret None
              end;
  Xc ← deref (X_current self);
  Xo ← lift (X_orthogonalizer (T Xc) (Some last_selected) None (Some tol_1e_12));
  X_current ← alloc (T Xo);
  Xc ← deref X_current;
  Xe ← lift (getitem_mask Xc (eligible_ self));
  ye ← match y_current with
       | Some yc =>
           yv ← deref yc;
           ye ← lift (getitem_mask yv (eligible_ self));
           mret (Some ye)
       | None => mret None
       end;
  new_pi ← _compute_pi self Xe ye;
  pi_ ← lift (setitem_mask (pi_ self) (eligible_ self) new_pi);
  mret (Selector self self X_current y_current pi_).

(** [CUR._update_post_selection] *)
Definition _update_post_selection (self : selector) (X : loc) (y : option loc)
    (last_selected : nat) : M selector :=
  super ← GreedySelector._update_post_selection self X y last_selected;
  let self := Selector self super (X_current self) (y_current self) (pi_ self) in
  self ← (if iterative self
          then orthogonalize_and_rescore self last_selected
          else mret self);
  pi_ ← lift (setitem (pi_ self) last_selected 0%Q);
  mret (Selector (self : selector) self (X_current self) (y_current self) pi_).

(** The hooks [CUR] overrides. *)
Definition hooks : GreedySelector.hooks :=
  GreedySelector.Hooks _init_greedy_search _continue_greedy_search score
                       _update_post_selection.

(** [CUR.fit], inherited from the skeleton. *)
Definition fit : params → loc → option loc → M selector :=
  GreedySelector.fit hooks.

Definition fit_warm_start : selector → loc → option loc → M selector :=
  GreedySelector.fit_warm_start hooks.

End WithCollaborators.
End CUR.

(** ** Observing a run *)

Section Observations.
Context `{Collaborators}.

#[global] Instance world_inhabited : Inhabited world :=
  populate (World ∅ inhabitant ∅).

#[global] Instance selector_inhabited : Inhabited selector :=
  populate (Selector (Params (GreedyParams None false None) 0 false auto SeedNone)
                     (GreedyState [] inhabitant None [] 0) 0 None []).

(** What a computation returned. *)
Definition out {A} `{Inhabited A} (r : result A) : A :=
  match r with Ok a => a | Raise _ => inhabitant end.

(** The indices a run selected, in order. *)
Definition selected (r : result (selector * world)) : option (list nat) :=
  match r with Ok (s, _) => Some (selected_idx_ s) | Raise _ => None end.

(** The importance vector a run leaves. *)
Definition importance (r : result (selector * world)) : option (list Q) :=
  match r with Ok (s, _) => Some (pi_ s) | Raise _ => None end.

(** The working matrix a run leaves. *)
Definition working_matrix (r : result (selector * world))
  : option (ndarray Q) :=
  match r with Ok (s, w) => Some (heap w !!! X_current s) | Raise _ => None end.

(** The working target a run leaves, if it has one. *)
Definition working_target (r : result (selector * world))
  : option (option (ndarray Q)) :=
  match r with
  | Ok (s, w) => Some ((λ l, heap w !!! l) <$> y_current s)
  | Raise _ => None
  end.

End Observations.
Arguments out : simpl never.

(** ** An exact instance of the collaborators

    Used to run the selector on concrete inputs.  The orthogonalizers
    project exactly over [Q]; they remove the span of the reference when
    its vectors are mutually orthogonal.  The decomposition returns
    [n_components] consecutive columns of its input, starting at the
    column the generator designates: for a matrix with orthonormal
    columns, such as the identity, these are left singular vectors. *)

Module Exact.

Definition dot (u v : list Q) : Q :=
  foldl Qplus 0%Q (zip_with Qmult u v).

(** [v] without its component along [u]. *)
Definition project_out (u v : list Q) : list Q :=
  let d := dot u u in
  if Qle_bool d 0 then v
  else zip_with (λ x y, x - (dot u v / d) * y)%Q v u.

Definition randomized_svd (M : ndarray Q) (n_components : Z) (n_iter : power)
    (flip_sign : bool) (s : nat) : result (ndarray complex * nat) :=
  let column (r : list Q) (t : nat) :=
    Complex (default 0%Q (r !! ((s + t) `mod` ncols M))) 0%Q in
  Ok (NDArray (map (λ r, map (column r) (seq 0 (Z.to_nat n_components)))
                   (rows M))
              (Z.to_nat n_components),
      S s).

Definition X_orthogonalizer (x1 : ndarray Q) (c : option nat)
    (x2 : option (ndarray Q)) (tol : option Q) : result (ndarray Q) :=
  let samples := T x1 in
  match c, x2 with
  | Some c, _ =>
      match rows samples !! c with
      | Some u =>
          Ok (T (NDArray (map (project_out u) (rows samples)) (ncols samples)))
      | None => Raise IndexError
      end
  | None, Some x2 =>
      Ok (T (NDArray (foldl (λ rs u, map (project_out u) rs)
                            (rows samples) (rows (T x2)))
                     (ncols samples)))
  | None, None => Raise ValueError
  end.

Definition Y_sample_orthogonalizer (y X : ndarray Q) (y_ref : option (ndarray Q))
    (X_ref : ndarray Q) (tol : Q) : result (ndarray Q) :=
  match y_ref with
  | Some y_ref =>
      let regress (x yi : list Q) :=
        foldl (λ acc '(u, yu),
                 let d := dot u u in
                 if Qle_bool d 0 then acc
                 else zip_with (λ a b, a - (dot u x / d) * b)%Q acc yu)
              yi (zip (rows X_ref) (rows y_ref)) in
      Ok (NDArray (imap (λ i yi, regress (default [] (rows X !! i)) yi) (rows y))
                  (ncols y))
  | None => Raise ValueError
  end.

#[export] Instance collaborators : Collaborators :=
  Build_Collaborators nat Z.to_nat randomized_svd X_orthogonalizer
                      Y_sample_orthogonalizer.

(** The 2 x 2 identity, and a target with one column. *)
Definition eye2 : ndarray Q := NDArray [[1; 0]; [0; 1]]%Q 2.
Definition target2 : ndarray Q := NDArray [[3]; [5]]%Q 1.

(** A store holding [eye2] at reference 0 and [target2] at reference 1,
    with the global generator in state [g]. *)
Definition world2 (g : nat) : world :=
  World {[ 0 := eye2; 1 := target2 ]} g ∅.

(** [CUR(n_samples_to_select=n, score_thresh_to_select=thr, iterative=it,
    k=rank, random_state=rs)], the other arguments at their defaults. *)
Definition cur (n : Z) (thr : option Q) (it : bool) (rank : Z) (rs : seed)
  : params :=
  CUR.__init__ (Some (Absolute n)) thr it rank tol_1e_12 auto rs false.

(** The first stage of the examples: one sample selected from [eye2],
    with the target [y] or without. *)
Definition first_stage (y : option loc) : result (selector * world) :=
  CUR.fit (cur 1 None true 1 SeedNone) 0 y (world2 0).

(** The 3 x 3 identity, and a store holding it at reference 0, with the
    global generator in state [g]. *)
Definition eye3 : ndarray Q := NDArray [[1; 0; 0]; [0; 1; 0]; [0; 0; 1]]%Q 3.

Definition world3 (g : nat) : world := World {[ 0 := eye3 ]} g ∅.

(** The assignment [selector.n_samples_to_select = n] between two fits. *)
Definition set_n_samples_to_select (n : Z) (s : selector) : selector :=
  Selector (Params (GreedyParams (Some (Absolute n)) (progress_bar s)
                                 (score_threshold s))
                   (k s) (iterative s) (iterated_power s) (random_state s))
           s (X_current s) (y_current s) (pi_ s).

End Exact.

(** ** A decomposition with a complete set of singular vectors

    The left singular vectors of a diagonal matrix are the columns of the
    identity, up to their order and signs; this holds as well for the
    columns that belong to the singular value zero, which complete the
    others to an orthonormal basis.  This decomposition returns the first
    [n_components] columns of the identity.  It is used with as many
    components as there are rows, on diagonal matrices, where the
    importance scores do not depend on the order of the columns. *)

Module Complete.

Definition randomized_svd (M : ndarray Q) (n_components : Z) (n_iter : power)
    (flip_sign : bool) (s : nat) : result (ndarray complex * nat) :=
  let unit (i j : nat) := Complex (if decide (i = j) then 1 else 0)%Q 0%Q in
  Ok (NDArray (imap (λ i _, map (unit i) (seq 0 (Z.to_nat n_components)))
                    (rows M))
              (Z.to_nat n_components),
      S s).

#[export] Instance collaborators : Collaborators :=
  Build_Collaborators nat Z.to_nat randomized_svd Exact.X_orthogonalizer
                      Exact.Y_sample_orthogonalizer.

(** A store holding the 2 x 2 identity at reference 0. *)
Definition world2 : world := World {[ 0 := Exact.eye2 ]} 0 ∅.

End Complete.

(** * Properties *)

(** ** Reasoning about computations *)

Section Computations.
Context `{Collaborators}.

Lemma bind_Ok {A B} (m : M A) (f : A → M B) w b w' :
  (m ≫= f) w = Ok (b, w') →
  ∃ a w1, m w = Ok (a, w1) ∧ f a w1 = Ok (b, w').
Proof.
  unfold mbind, M_bind. destruct (m w) as [[a w1]|e]; [eauto | done].
Qed.

Lemma bind_Raise {A B} (m : M A) (f : A → M B) w e :
  (m ≫= f) w = Raise e ↔
  m w = Raise e ∨ ∃ a w1, m w = Ok (a, w1) ∧ f a w1 = Raise e.
Proof.
  unfold mbind, M_bind. destruct (m w) as [[a w1]|e'].
  - split.
    + intros Hf. right. by exists a, w1.
    + intros [?|(? & ? & [= -> ->] & ?)]; done.
  - split.
    + intros [= ->]. by left.
    + intros [[= ->]|(? & ? & ? & ?)]; done.
Qed.

Lemma ret_Ok {A} (a b : A) (w w' : world) :
  mret (M := M) a w = Ok (b, w') → b = a ∧ w' = w.
Proof. unfold mret, M_ret. by intros [= -> ->]. Qed.

Lemma lift_Ok {A} (r : result A) a w w' :
  lift r w = Ok (a, w') → r = Ok a ∧ w' = w.
Proof. unfold lift. destruct r; by intros [= -> ->]. Qed.

Lemma deref_Ok l a w w' :
  deref l w = Ok (a, w') → a = heap w !!! l ∧ w' = w.
Proof. unfold deref. by intros [= <- <-]. Qed.

Lemma alloc_Ok a l w w' :
  alloc a w = Ok (l, w') →
  (l ∉ dom (heap w)) ∧
  w' = World (<[l := a]> (heap w)) (np_random w) (generators w).
Proof. unfold alloc. intros [= <- <-]. split; [apply is_fresh | done]. Qed.

Lemma deref_opt_Ok l a w w' :
  deref_opt l w = Ok (a, w') → a = (λ l, heap w !!! l) <$> l ∧ w' = w.
Proof.
  destruct l as [l|]; simpl.
  - intros (? & ? & (-> & ->)%deref_Ok & (-> & ->)%ret_Ok)%bind_Ok. done.
  - by intros (-> & ->)%ret_Ok.
Qed.

Lemma is_ok_out {A B} `{Inhabited A, Inhabited B} (r : result (A * B)) :
  is_ok r = true → r = Ok ((out r).1, (out r).2).
Proof. by destruct r as [[a b]|e]. Qed.

End Computations.

(** Decomposes a successful computation into its successful steps. *)
Ltac inv_M :=
  repeat match goal with
    | H : (_ ≫= _) _ = Ok _ |- _ =>
        let H1 := fresh "Hstep" in
        apply bind_Ok in H as (? & ? & H1 & H)
    | H : mret _ _ = Ok _ |- _ => apply ret_Ok in H as [? ?]; subst
    | H : lift _ _ = Ok _ |- _ => apply lift_Ok in H as [? ?]; subst
    | H : deref _ _ = Ok _ |- _ => apply deref_Ok in H as [? ?]; subst
    | H : deref_opt _ _ = Ok _ |- _ => apply deref_opt_Ok in H as [? ?]; subst
    | H : alloc _ _ = Ok _ |- _ => apply alloc_Ok in H as [? ?]; subst
    end.

(** ** numpy operations *)

Section Arrays.
Context {A : Type}.
Implicit Types (mask : list bool) (l vals : list A).

Lemma length_scatter_mask mask vals l :
  length (scatter_mask mask vals l) = length l.
Proof.
  revert vals l. induction mask as [|[] mask IH]; intros vals [|x l]; simpl;
    try done; destruct vals; simpl; by rewrite IH.
Qed.

Lemma scatter_mask_lookup_false mask vals l i :
  mask !! i = Some false → scatter_mask mask vals l !! i = l !! i.
Proof.
  revert vals l i. induction mask as [|b mask IH]; intros vals [|x l] i; try done.
  destruct i as [|i]; simpl.
  - intros [= ->]. done.
  - intros Hi. destruct b; [destruct vals|]; simpl; by apply IH.
Qed.

Lemma setitem_mask_Ok (a : list A) mask vals a' :
  setitem_mask a mask vals = Ok a' →
  length a' = length a ∧
  ∀ i, mask !! i = Some false → a' !! i = a !! i.
Proof.
  unfold setitem_mask. intros Hs. repeat case_decide; try done.
  - injection Hs as <-. split; [apply length_scatter_mask|].
    intros. by apply scatter_mask_lookup_false.
  - destruct vals as [|v [|]]; try done.
    injection Hs as <-. split; [apply length_scatter_mask|].
    intros. by apply scatter_mask_lookup_false.
Qed.

Lemma setitem_Ok (a : list A) i v a' :
  setitem a i v = Ok a' → i < length a ∧ a' = <[i := v]> a.
Proof. unfold setitem. case_decide; [|done]. by intros [= <-]. Qed.

Lemma setitem_in_range (a : list A) i v :
  i < length a → setitem a i v = Ok (<[i := v]> a).
Proof. unfold setitem. intros. by case_decide. Qed.

Lemma getitem_mask_Ok (a : ndarray A) mask a' :
  getitem_mask a mask = Ok a' →
  length mask = len a ∧ a' = NDArray (select_mask mask (rows a)) (ncols a).
Proof. unfold getitem_mask. case_decide; [|done]. by intros [= <-]. Qed.

Lemma len_T (a : ndarray A) : len (T a) = ncols a.
Proof. unfold len, T. simpl. by rewrite length_map, length_seq. Qed.

Lemma ncols_T (a : ndarray A) : ncols (T a) = len a.
Proof. done. Qed.

End Arrays.

(** ** The store under the hooks *)

Section Worlds.
Context `{Collaborators}.

(** The generators of a world: the part of the store the decomposition
    reads and advances. *)
Definition gens (w : world) : rng * gmap loc rng := (np_random w, generators w).

Lemma heap_set_generator_state g s w :
  heap (set_generator_state g s w) = heap w.
Proof. by destruct g. Qed.

Lemma generator_state_gens g w1 w2 :
  gens w1 = gens w2 → generator_state g w1 = generator_state g w2.
Proof. unfold gens. intros [= E1 E2]. destruct g; simpl; congruence. Qed.

Lemma gens_set_generator_state g s w1 w2 :
  gens w1 = gens w2 →
  gens (set_generator_state g s w1) = gens (set_generator_state g s w2).
Proof. unfold gens. intros [= E1 E2]. destruct g; simpl; congruence. Qed.

(** Allocation leaves the objects that exist as they are. *)
Lemma lookup_total_alloc (h : gmap loc (ndarray Q)) l l' a :
  l ∈ dom h → l' ∉ dom h → <[l' := a]> h !!! l = h !!! l.
Proof.
  intros Hl Hl'. apply lookup_total_insert_ne. intros ->. done.
Qed.

(** The importance vector computed from the left singular vectors [U]. *)
Definition new_pi (U : ndarray complex) (k : Z) : list Q :=
  sum_axis1 (square (np_real (slice_cols U k))).

Lemma compute_pi_eq (self : params) X y w :
  CUR._compute_pi self X y w =
  match check_random_state (random_state self) with
  | Ok g =>
      match randomized_svd X (k self) (iterated_power self) true
              (generator_state g w) with
      | Ok (U, s') => Ok (new_pi U (k self), set_generator_state g s' w)
      | Raise e => Raise e
      end
  | Raise e => Raise e
  end.
Proof.
  unfold CUR._compute_pi, call_randomized_svd, lift, mbind, M_bind.
  destruct check_random_state as [g|e]; [|done].
  by destruct randomized_svd as [[U s']|e].
Qed.

Lemma compute_pi_Ok (self : params) X y w p w' :
  CUR._compute_pi self X y w = Ok (p, w') →
  ∃ g U s',
    check_random_state (random_state self) = Ok g ∧
    randomized_svd X (k self) (iterated_power self) true
      (generator_state g w) = Ok (U, s') ∧
    p = new_pi U (k self) ∧
    w' = set_generator_state g s' w.
Proof.
  rewrite compute_pi_eq. destruct check_random_state as [g|e]; [|done].
  destruct randomized_svd as [[U s']|e] eqn:Hsvd; [|done].
  intros [= <- <-]. by exists g, U, s'.
Qed.

Lemma length_new_pi U k : length (new_pi U k) = len U.
Proof.
  unfold new_pi, sum_axis1, len. simpl. by rewrite !length_map.
Qed.

End Worlds.

(** ** Importance scores *)

(** The score of a row as the specification words it: the sum, over the
    first [rank] left singular vectors, of the square of the real part of
    the row's entry. *)
Fixpoint leverage (row : list complex) (rank : nat) : Q :=
  match rank with
  | O => 0%Q
  | S j =>
      (leverage row j +
       match row !! j with Some c => re c * re c | None => 0 end)%Q
  end.

Section Scores.
Context `{Collaborators}.

Lemma foldl_Qplus_nonneg (l : list Q) (acc : Q) :
  (0 <= acc)%Q → Forall (λ x, 0 <= x)%Q l → (0 <= foldl Qplus acc l)%Q.
Proof.
  intros Hacc Hl. revert acc Hacc.
  induction Hl as [|x l Hx _ IH]; intros acc Hacc; simpl; [done|].
  apply IH. lra.
Qed.

Lemma square_nonneg (x : Q) : (0 <= x ^ 2)%Q.
Proof. simpl. nra. Qed.

Lemma sum_squares_take (row : list complex) (n : nat) :
  (foldl Qplus 0 (map (λ x, x ^ 2) (map re (take n row))) == leverage row n)%Q.
Proof.
  induction n as [|n IH]; simpl; [by destruct row|].
  destruct (row !! n) as [c|] eqn:Hc.
  - rewrite (take_S_r _ _ _ Hc), !map_app, foldl_app. simpl.
    rewrite IH. lra.
  - apply lookup_ge_None in Hc.
    rewrite take_ge in IH by lia. rewrite take_ge by lia. rewrite IH. lra.
Qed.

Lemma new_pi_lookup U k i :
  new_pi U k !! i =
  (λ row, foldl Qplus 0%Q (map (λ x, x ^ 2)%Q (map re (slice_to k row)))) <$>
    (rows U !! i).
Proof.
  unfold new_pi, sum_axis1, square, np_real, slice_cols. simpl.
  rewrite !list_lookup_fmap. by destruct (rows U !! i).
Qed.

Lemma new_pi_nonneg U k i x : new_pi U k !! i = Some x → (0 <= x)%Q.
Proof.
  rewrite new_pi_lookup. destruct (rows U !! i) as [row|]; [|done].
  intros [= <-]. apply foldl_Qplus_nonneg; [lra|].
  apply Forall_fmap, Forall_true. intros c. apply square_nonneg.
Qed.

(** C5: whenever [_compute_pi] returns, the decomposition returned some
    [U] for the given matrix and rank, the importance vector has one entry
    per row of [U], every entry is non-negative, and for a rank that is
    not negative the entry of a row is the sum of the squares of the real
    parts of the row's entries in the first [rank] columns of [U]. *)
Theorem compute_pi_sum_of_squares (self : params) X y w p w' :
  CUR._compute_pi self X y w = Ok (p, w') →
  ∃ g U s',
    check_random_state (random_state self) = Ok g ∧
    randomized_svd X (k self) (iterated_power self) true
      (generator_state g w)
    = Ok (U, s') ∧
    length p = len U ∧
    (∀ i x, p !! i = Some x → (0 <= x)%Q) ∧
    ((0 ≤ k self)%Z → ∀ i row, rows U !! i = Some row →
       ∃ x, p !! i = Some x ∧ (x == leverage row (Z.to_nat (k self)))%Q).
Proof.
  intros (g & U & s' & Hg & Hsvd & -> & _)%compute_pi_Ok.
  exists g, U, s'. split; [done|]. split; [done|]. split; [apply length_new_pi|].
  split; [apply new_pi_nonneg|].
  intros Hk i row Hrow. rewrite new_pi_lookup, Hrow. simpl.
  eexists. split; [done|].
  unfold slice_to. destruct (Z.ltb_spec (k self) 0); [lia|].
  apply sum_squares_take.
Qed.

End Scores.
Section Hooks.
Context `{Collaborators}.

(** Every object of [w] exists unchanged in [w']. *)
Definition extends (w w' : world) : Prop :=
  ∀ l, l ∈ dom (heap w) → l ∈ dom (heap w') ∧ heap w' !!! l = heap w !!! l.

Lemma extends_refl w : extends w w.
Proof. by intros l Hl. Qed.

Lemma extends_trans w1 w2 w3 : extends w1 w2 → extends w2 w3 → extends w1 w3.
Proof.
  intros H12 H23 l Hl. destruct (H12 l Hl) as [Hl2 E2].
  destruct (H23 l Hl2) as [Hl3 E3]. split; [done | congruence].
Qed.

Lemma extends_heap_eq w w' : heap w' = heap w → extends w w'.
Proof. intros E l Hl. by rewrite E. Qed.

Lemma extends_alloc w l a :
  l ∉ dom (heap w) →
  extends w (World (<[l := a]> (heap w)) (np_random w) (generators w)).
Proof.
  intros Hl l' Hl'. simpl. split; [set_solver|]. by apply lookup_total_alloc.
Qed.

Lemma compute_pi_post (self : params) X y w p w' :
  CUR._compute_pi self X y w = Ok (p, w') →
  heap w' = heap w ∧
  ∃ g U s',
    check_random_state (random_state self) = Ok g ∧
    randomized_svd X (k self) (iterated_power self) true
      (generator_state g w) = Ok (U, s') ∧
    p = new_pi U (k self) ∧
    gens w' = gens (set_generator_state g s' w).
Proof.
  intros (g & U & s' & Hg & Hsvd & -> & ->)%compute_pi_Ok.
  split; [apply heap_set_generator_state|]. eauto 10.
Qed.

(** The regression of the working target on the selected samples, as both
    [_continue_greedy_search] and [_update_post_selection] perform it. *)
Lemma regress_target_post (yc : option loc) (Xl : loc) ysel Xsel w r w' :
  match yc with
  | Some yc =>
      yv ← deref yc;
      Xc ← deref Xl;
      y' ← lift (Y_sample_orthogonalizer yv Xc ysel Xsel tol_1e_12);
      l ← alloc y';
      mret (Some l)
  | None => mret None
  end w = Ok (r, w') →
  extends w w' ∧ gens w' = gens w ∧
  match yc with
  | Some yc =>
      ∃ y' l,
        Y_sample_orthogonalizer (heap w !!! yc) (heap w !!! Xl) ysel Xsel tol_1e_12
        = Ok y' ∧
        r = Some l ∧ (l ∉ dom (heap w)) ∧ l ∈ dom (heap w') ∧ heap w' !!! l = y'
  | None => r = None
  end.
Proof.
  destruct yc as [yc|]; intros Hrun; inv_M.
  - split; [by apply extends_alloc|]. split; [done|].
    eexists _, _. split; [done|]. split; [done|]. split; [done|]. simpl.
    split; [set_solver|]. apply lookup_total_insert_eq.
  - split; [apply extends_refl | done].
Qed.

Lemma orthogonalize_and_rescore_post (self : selector) last w s' w' :
  X_current self ∈ dom (heap w) →
  CUR.orthogonalize_and_rescore self last w = Ok (s', w') →
  selector_params s' = selector_params self ∧
  selector_super s' = selector_super self ∧
  extends w w' ∧
  X_current s' ∈ dom (heap w') ∧
  (∃ Xo Xe gen U r,
     X_orthogonalizer (T (heap w !!! X_current self)) (Some last) None
       (Some tol_1e_12) = Ok Xo ∧
     heap w' !!! X_current s' = T Xo ∧
     getitem_mask (T Xo) (eligible_ self) = Ok Xe ∧
     check_random_state (random_state self) = Ok gen ∧
     randomized_svd Xe (k self) (iterated_power self) true
       (generator_state gen w)
     = Ok (U, r) ∧
     setitem_mask (pi_ self) (eligible_ self) (new_pi U (k self))
     = Ok (pi_ s') ∧
     gens w' =
     gens (set_generator_state gen r w)) ∧
  match y_current self with
  | Some yc =>
      ∃ y' l,
        Y_sample_orthogonalizer (heap w !!! yc) (heap w !!! X_current self)
          (y_selected_ self) (X_selected_ self) tol_1e_12 = Ok y' ∧
        y_current s' = Some l ∧ l ∈ dom (heap w') ∧ heap w' !!! l = y'
  | None => y_current s' = None
  end.
Proof.
  intros HX Hrun. unfold CUR.orthogonalize_and_rescore in Hrun.
  apply bind_Ok in Hrun as (yc' & w1 & Hy & Hrun).
  apply regress_target_post in Hy as (Hext1 & Hg1 & Hy).
  destruct (Hext1 _ HX) as [HX1 EX1].
  apply bind_Ok in Hrun as (Xc & ? & [-> ->]%deref_Ok & Hrun).
  apply bind_Ok in Hrun as (Xo & ? & [HXo ->]%lift_Ok & Hrun).
  apply bind_Ok in Hrun as (Xl & w2 & [HXl ->]%alloc_Ok & Hrun).
  apply bind_Ok in Hrun as (? & ? & [-> ->]%deref_Ok & Hrun).
  apply bind_Ok in Hrun as (Xe & ? & [HXe ->]%lift_Ok & Hrun).
  simpl in HXe. rewrite lookup_total_insert_eq in HXe.
  apply bind_Ok in Hrun as (ye & w3 & Hye & Hrun).
  assert (w3 = World (<[Xl:=T Xo]> (heap w1)) (np_random w1) (generators w1))
    as ->.
  { destruct yc'; inv_M; done. }
  clear Hye.
  apply bind_Ok in Hrun
    as (p & w4 & (Hh & gen & U & r & Hgen & Hsvd & -> & Hg)%compute_pi_post & Hrun).
  apply bind_Ok in Hrun as (p' & ? & [Hp' ->]%lift_Ok & Hrun).
  apply ret_Ok in Hrun as [-> ->]. simpl in *.
  assert (extends w1 w4) as Hext2.
  { eapply extends_trans; [by apply extends_alloc|]. by apply extends_heap_eq. }
  split; [done|]. split; [done|].
  split; [by eapply extends_trans|].
  split; [rewrite Hh; set_solver|].
  split.
  - exists Xo, Xe, gen, U, r. rewrite <- EX1. split; [done|].
    split; [rewrite Hh; apply lookup_total_insert_eq|]. split; [done|].
    split; [done|].
    split; [by rewrite <- (generator_state_gens _ _ _ Hg1)|].
    split; [done|]. rewrite Hg. by apply gens_set_generator_state.
  - destruct (y_current self) as [yc|]; [|done].
    destruct Hy as (y' & l & Hy' & -> & Hl & Hl1 & El).
    exists y', l. split; [done|]. split; [done|].
    destruct (Hext2 _ Hl1) as [? ?]. split; [done | congruence].
Qed.

Lemma greedy_update_post (self : greedy_state) X y last w g w' :
  GreedySelector._update_post_selection self X y last w = Ok (g, w') →
  w' = w ∧
  last < length (eligible_ self) ∧
  eligible_ g = <[last := false]> (eligible_ self) ∧
  selected_idx_ g = selected_idx_ self ++ [last] ∧
  n_selected_ g = S (n_selected_ self) ∧
  ∃ row, rows (heap w !!! X) !! last = Some row ∧
         X_selected_ g = append_row (X_selected_ self) row.
Proof.
  unfold GreedySelector._update_post_selection. intros Hrun.
  apply bind_Ok in Hrun as (Xv & ? & [-> ->]%deref_Ok & Hrun).
  apply bind_Ok in Hrun as (row & ? & [Hrow ->]%lift_Ok & Hrun).
  apply bind_Ok in Hrun as (ys & w1 & Hys & Hrun).
  assert (w1 = w) as ->. { destruct y; inv_M; done. }
  inv_M. simpl.
  match goal with Hs : setitem _ _ _ = Ok _ |- _ =>
    apply setitem_Ok in Hs as [? ->] end.
  unfold getitem in Hrow. destruct (rows (heap w !!! X) !! last) eqn:E; [|done].
  injection Hrow as ->. eauto 10.
Qed.

Lemma update_post_selection_post (self : selector) X y last w s' w' :
  X_current self ∈ dom (heap w) →
  CUR._update_post_selection self X y last w = Ok (s', w') →
  selector_params s' = selector_params self ∧
  last < length (eligible_ self) ∧
  eligible_ s' = <[last := false]> (eligible_ self) ∧
  selected_idx_ s' = selected_idx_ self ++ [last] ∧
  n_selected_ s' = S (n_selected_ self) ∧
  (∃ row, rows (heap w !!! X) !! last = Some row ∧
          X_selected_ s' = append_row (X_selected_ self) row) ∧
  extends w w' ∧
  X_current s' ∈ dom (heap w') ∧
  if iterative self then
    ∃ Xo Xe gen U r p,
      X_orthogonalizer (T (heap w !!! X_current self)) (Some last) None
        (Some tol_1e_12) = Ok Xo ∧
      heap w' !!! X_current s' = T Xo ∧
      getitem_mask (T Xo) (<[last := false]> (eligible_ self)) = Ok Xe ∧
      check_random_state (random_state self) = Ok gen ∧
      randomized_svd Xe (k self) (iterated_power self) true
        (generator_state gen w)
      = Ok (U, r) ∧
      setitem_mask (pi_ self) (<[last := false]> (eligible_ self))
        (new_pi U (k self)) = Ok p ∧
      last < length p ∧
      pi_ s' = <[last := 0%Q]> p ∧
      gens w' =
      gens (set_generator_state gen r w)
  else
    w' = w ∧ X_current s' = X_current self ∧ y_current s' = y_current self ∧
    last < length (pi_ self) ∧ pi_ s' = <[last := 0%Q]> (pi_ self).
Proof.
  intros HX Hrun. unfold CUR._update_post_selection in Hrun.
  apply bind_Ok in Hrun as (g & ? & Hg & Hrun).
  apply greedy_update_post in Hg as (-> & Hlast & Hel & Hidx & Hn & Hrow).
  apply bind_Ok in Hrun as (s1 & w1 & Hit & Hrun).
  apply bind_Ok in Hrun as (p' & ? & [[Hp ->]%setitem_Ok ->]%lift_Ok & Hrun).
  apply ret_Ok in Hrun as [-> ->]. simpl in *.
  destruct (iterative self) eqn:Eit.
  - apply orthogonalize_and_rescore_post in Hit; [|done]. simpl in Hit.
    destruct Hit
      as (E1 & E2 & Hext & HX' &
          (Xo & Xe & gen & U & r & ? & ? & ? & ? & ? & ? & ?) & _).
    rewrite E1, E2. simpl. rewrite Hel in *.
    do 8 (split; [done|]). exists Xo, Xe, gen, U, r, (pi_ s1). done.
  - apply ret_Ok in Hit as [-> ->]. simpl.
    do 6 (split; [done|]). split; [apply extends_refl|]. done.
Qed.

Lemma copy_target_post (y : option loc) w r w' :
  match y with
  | Some y => l ← copy y; mret (Some l)
  | None => mret None
  end w = Ok (r, w') →
  extends w w' ∧ gens w' = gens w ∧
  match y with
  | Some ly =>
      ∃ lc, r = Some lc ∧ (lc ∉ dom (heap w)) ∧ lc ∈ dom (heap w') ∧
            heap w' !!! lc = heap w !!! ly
  | None => r = None
  end.
Proof.
  destruct y as [ly|]; unfold copy; intros Hrun; inv_M.
  - split; [by apply extends_alloc|]. split; [done|].
    eexists. split; [done|]. split; [done|]. simpl.
    split; [set_solver | apply lookup_total_insert_eq].
  - split; [apply extends_refl | done].
Qed.

Lemma greedy_init_post X y n w g w' :
  GreedySelector._init_greedy_search X y n w = Ok (g, w') →
  w' = w ∧
  eligible_ g = replicate (len (heap w !!! X)) true ∧
  X_selected_ g = NDArray [] (ncols (heap w !!! X)) ∧
  selected_idx_ g = [] ∧
  n_selected_ g = 0.
Proof.
  unfold GreedySelector._init_greedy_search. intros Hrun. inv_M. done.
Qed.

Lemma init_greedy_search_post (self : params) X y n w s w' :
  X ∈ dom (heap w) →
  (∀ ly, y = Some ly → ly ∈ dom (heap w)) →
  CUR._init_greedy_search self X y n w = Ok (s, w') →
  selector_params s = self ∧
  extends w w' ∧
  (X_current s ∉ dom (heap w)) ∧
  X_current s ∈ dom (heap w') ∧
  heap w' !!! X_current s = heap w !!! X ∧
  match y with
  | Some ly =>
      ∃ lc, y_current s = Some lc ∧ (lc ∉ dom (heap w)) ∧ lc ≠ X_current s ∧
            lc ∈ dom (heap w') ∧ heap w' !!! lc = heap w !!! ly
  | None => y_current s = None
  end ∧
  (∃ gen U r,
     check_random_state (random_state self) = Ok gen ∧
     randomized_svd (heap w !!! X) (k self) (iterated_power self) true
       (generator_state gen w)
     = Ok (U, r) ∧
     pi_ s = new_pi U (k self) ∧
     gens w' =
     gens (set_generator_state gen r w)) ∧
  eligible_ s = replicate (len (heap w !!! X)) true ∧
  selected_idx_ s = [] ∧
  n_selected_ s = 0.
Proof.
  intros HX Hy Hrun. unfold CUR._init_greedy_search in Hrun.
  apply bind_Ok in Hrun as (Xl & w1 & HXl & Hrun).
  unfold copy in HXl.
  apply bind_Ok in HXl as (? & ? & [-> ->]%deref_Ok & [HXl ->]%alloc_Ok).
  set (w1 := World _ _ _) in Hrun.
  assert (extends w w1) as Hext1 by by apply extends_alloc.
  assert (Xl ∈ dom (heap w1)) as HXl1 by (simpl; set_solver).
  assert (heap w1 !!! Xl = heap w !!! X) as EXl
    by apply lookup_total_insert_eq.
  apply bind_Ok in Hrun as (yl & w2 & (Hext2 & Hg2 & Hyl)%copy_target_post & Hrun).
  destruct (Hext2 _ HXl1) as [HXl2 EXl2].
  apply bind_Ok in Hrun as (? & ? & [-> ->]%deref_Ok & Hrun).
  apply bind_Ok in Hrun as (? & ? & [-> ->]%deref_opt_Ok & Hrun).
  apply bind_Ok in Hrun
    as (p & w3 & (Hh & gen & U & r & Hgen & Hsvd & -> & Hg3)%compute_pi_post & Hrun).
  apply bind_Ok in Hrun as (g & ? & (-> & Hel & _ & Hidx & Hn)%greedy_init_post & Hrun).
  apply ret_Ok in Hrun as [-> ->]. simpl.
  assert (extends w w3) as Hext3.
  { eapply extends_trans; [done|]. eapply extends_trans; [done|].
    by apply extends_heap_eq. }
  split; [done|]. split; [done|]. split; [done|].
  split; [by rewrite Hh|]. split; [rewrite Hh; congruence|].
  split; [|split; [|split; [|done]]].
  - destruct y as [ly|]; [|done].
    destruct Hyl as (lc & -> & Hlc & Hlc2 & Elc). exists lc.
    split; [done|]. split; [subst w1; simpl in Hlc; set_solver|].
    split; [intros ->; done|]. split; [by rewrite Hh|].
    rewrite Hh, Elc. apply Hext1. by apply Hy.
  - exists gen, U, r. rewrite EXl2, EXl in Hsvd.
    rewrite (generator_state_gens _ w2 w) in Hsvd by by rewrite Hg2.
    split; [done|]. split; [done|]. split; [done|]. rewrite Hg3.
    apply gens_set_generator_state. by rewrite Hg2.
  - rewrite Hel. f_equal. f_equal. by apply Hext3.
Qed.

Lemma continue_greedy_search_post (self : selector) X y n w s w' :
  (∀ yc, y_current self = Some yc → yc ∈ dom (heap w)) →
  CUR._continue_greedy_search self X y n w = Ok (s, w') →
  selector_params s = selector_params self ∧
  selector_super s = selector_super self ∧
  extends w w' ∧
  X_current s ∈ dom (heap w') ∧
  ∃ Xo,
    X_orthogonalizer (T (heap w !!! X)) None (Some (T (X_selected_ self))) None
    = Ok Xo ∧
    heap w' !!! X_current s = T Xo ∧
    match y_current self with
    | Some yc =>
        ∃ y' l,
          Y_sample_orthogonalizer (heap w !!! yc) (T Xo) (y_selected_ self)
            (X_selected_ self) tol_1e_12 = Ok y' ∧
          y_current s = Some l ∧ l ∈ dom (heap w') ∧ heap w' !!! l = y'
    | None => y_current s = None
    end ∧
    ∃ gen U r,
      check_random_state (random_state self) = Ok gen ∧
      randomized_svd (T Xo) (k self) (iterated_power self) true
        (generator_state gen w)
      = Ok (U, r) ∧
      pi_ s = new_pi U (k self) ∧
      gens w' =
      gens (set_generator_state gen r w).
Proof.
  intros Hyc Hrun. unfold CUR._continue_greedy_search in Hrun.
  apply bind_Ok in Hrun as (? & ? & [-> ->]%deref_Ok & Hrun).
  apply bind_Ok in Hrun as (Xo & ? & [HXo ->]%lift_Ok & Hrun).
  apply bind_Ok in Hrun as (Xl & ? & [HXl ->]%alloc_Ok & Hrun).
  set (w1 := World _ _ _) in Hrun.
  assert (extends w w1) as Hext1 by by apply extends_alloc.
  assert (Xl ∈ dom (heap w1)) as HXl1 by (simpl; set_solver).
  assert (heap w1 !!! Xl = T Xo) as EXl by apply lookup_total_insert_eq.
  apply bind_Ok in Hrun
    as (yl & w2 & (Hext2 & Hg2 & Hyl)%regress_target_post & Hrun).
  destruct (Hext2 _ HXl1) as [HXl2 EXl2].
  apply bind_Ok in Hrun as (? & ? & [-> ->]%deref_Ok & Hrun).
  apply bind_Ok in Hrun as (? & ? & [-> ->]%deref_opt_Ok & Hrun).
  apply bind_Ok in Hrun
    as (p & w3 & (Hh & gen & U & r & Hgen & Hsvd & -> & Hg3)%compute_pi_post & Hrun).
  unfold GreedySelector._continue_greedy_search in Hrun.
  inv_M. simpl.
  split; [done|]. split; [done|].
  split.
  { eapply extends_trans; [done|]. eapply extends_trans; [done|].
    by apply extends_heap_eq. }
  split; [by rewrite Hh|].
  exists Xo. split; [done|]. split; [rewrite Hh; congruence|].
  split.
  - destruct (y_current self) as [yc|]; [|done].
    destruct Hyl as (y' & l & Hy' & -> & Hl & Hl2 & El).
    exists y', l. rewrite EXl in Hy'.
    destruct (Hext1 yc) as [_ <-]; [by apply Hyc|].
    split; [done|]. split; [done|]. by rewrite Hh.
  - exists gen, U, r. rewrite EXl2, EXl in Hsvd.
    rewrite (generator_state_gens _ w2 w) in Hsvd by by rewrite Hg2.
    split; [done|]. split; [done|]. split; [done|]. rewrite Hg3.
    apply gens_set_generator_state. by rewrite Hg2.
Qed.

Lemma generator_state_heap g h1 h2 r gs :
  generator_state g (World h1 r gs) = generator_state g (World h2 r gs).
Proof. by destruct g. Qed.

Lemma init_greedy_search_outcome (self : params) X y n w :
  match check_random_state (random_state self) with
  | Ok gen =>
      match randomized_svd (heap w !!! X) (k self) (iterated_power self) true
              (generator_state gen w) with
      | Ok (U, _) =>
          ∃ s w', CUR._init_greedy_search self X y n w = Ok (s, w') ∧
                  pi_ s = new_pi U (k self)
      | Raise e => CUR._init_greedy_search self X y n w = Raise e
      end
  | Raise e => CUR._init_greedy_search self X y n w = Raise e
  end.
Proof.
  unfold CUR._init_greedy_search, GreedySelector._init_greedy_search, copy.
  unfold mbind, M_bind, deref, alloc, mret, M_ret. simpl.
  set (l1 := fresh (dom (heap w))).
  set (h1 := <[l1 := heap w !!! X]> (heap w)).
  assert (h1 !!! l1 = heap w !!! X) as E1 by apply lookup_total_insert_eq.
  destruct w as [h r gs]. simpl in *.
  destruct y as [ly|]; simpl; rewrite compute_pi_eq; simpl;
    (destruct check_random_state as [gen|e]; [|done]).
  - set (l2 := fresh (dom h1)).
    assert (l2 ≠ l1) as Hne.
    { intros E. apply (is_fresh (dom h1)). fold l2. rewrite E.
      subst h1. set_solver. }
    rewrite lookup_total_insert_ne, E1 by done.
    rewrite (generator_state_heap _ (<[l2 := _]> h1) h).
    destruct randomized_svd as [[U r']|e]; simpl; eauto.
  - rewrite E1, (generator_state_heap _ h1 h).
    destruct randomized_svd as [[U r']|e]; simpl; eauto.
Qed.
End Hooks.

(** ** Configuration *)

(** C1 (the code departs from the claim): the threshold the selector
    stops at is always [tolerance]; the constructed object does not depend
    on [score_thresh_to_select].  With a threshold of 2 configured on the
    identity matrix, where no score exceeds 1, the fit still selects
    sample 0. *)
Theorem score_thresh_to_select_is_dropped :
  (∀ n thr it rank tol ip rs pb,
     score_threshold (CUR.__init__ n thr it rank tol ip rs pb) = Some tol) ∧
  (∀ n thr thr' it rank tol ip rs pb,
     CUR.__init__ n thr it rank tol ip rs pb =
     CUR.__init__ n thr' it rank tol ip rs pb) ∧
  selected (CUR.fit (Exact.cur 2 (Some 2%Q) false 1 (SeedInt 0)) 0 None
              (Exact.world2 0)) = Some [0].
Proof. split; [done|]. split; [done|]. vm_compute. reflexivity. Qed.

(** ** Fresh start *)

Section FreshStart.
Context `{Collaborators}.

(** C9 (amended): [CUR] does not check the rank.  The constructor stores
    any integer.  At a fresh start nothing looks at the rank before the
    importance computation, and the outcome of the hook is decided inside
    [_compute_pi]: if [check_random_state] rejects the seed the hook raises
    that error; otherwise the decomposition is called on the copy of the
    input with the configured rank as [n_components], and the hook raises
    the error the decomposition raises, or returns with the importance
    vector computed from the [U] the decomposition returns. *)
Theorem rank_is_not_validated :
  (∀ n thr it rank tol ip rs pb,
     k (CUR.__init__ n thr it rank tol ip rs pb) = rank) ∧
  (∀ (self : params) X y n w,
     match check_random_state (random_state self) with
     | Ok gen =>
         match randomized_svd (heap w !!! X) (k self) (iterated_power self)
                 true (generator_state gen w) with
         | Ok (U, _) =>
             importance (CUR._init_greedy_search self X y n w)
             = Some (new_pi U (k self))
         | Raise e => CUR._init_greedy_search self X y n w = Raise e
         end
     | Raise e => CUR._init_greedy_search self X y n w = Raise e
     end).
Proof.
  split; [done|]. intros self X y n w.
  pose proof (init_greedy_search_outcome self X y n w) as Hout.
  destruct check_random_state as [gen|e]; [|done].
  destruct randomized_svd as [[U r]|e']; [|done].
  destruct Hout as (s & w' & -> & Hpi). simpl. by rewrite Hpi.
Qed.

(** C8: after a fresh start the working matrix is a new object with the
    entries of the input, the working target likewise when a target is
    given and absent otherwise; the caller's arrays are as they were, and
    a later write to a working object leaves them so; the importance
    vector is the one computed from the whole working matrix, and nothing
    is selected yet. *)
Theorem init_greedy_search_copies (self : params) X y n w s w' :
  X ∈ dom (heap w) →
  (∀ ly, y = Some ly → ly ∈ dom (heap w)) →
  CUR._init_greedy_search self X y n w = Ok (s, w') →
  (X_current s ∉ dom (heap w)) ∧
  heap w' !!! X_current s = heap w !!! X ∧
  heap w' !!! X = heap w !!! X ∧
  (∀ a, <[X_current s := a]> (heap w') !!! X = heap w !!! X) ∧
  match y with
  | Some ly =>
      ∃ lc, y_current s = Some lc ∧
            (lc ∉ dom (heap w)) ∧
            lc ≠ X_current s ∧
            heap w' !!! lc = heap w !!! ly ∧
            heap w' !!! ly = heap w !!! ly ∧
            (∀ a, <[lc := a]> (heap w') !!! ly = heap w !!! ly) ∧
            (∀ a, <[lc := a]> (heap w') !!! X = heap w !!! X) ∧
            (∀ a, <[X_current s := a]> (heap w') !!! ly = heap w !!! ly)
  | None => y_current s = None
  end ∧
  (∃ gen U r,
     check_random_state (random_state self) = Ok gen ∧
     randomized_svd (heap w' !!! X_current s) (k self) (iterated_power self)
       true (generator_state gen w)
     = Ok (U, r) ∧
     pi_ s = new_pi U (k self)) ∧
  selected_idx_ s = [] ∧
  n_selected_ s = 0.
Proof.
  intros HX Hy Hrun.
  destruct (init_greedy_search_post _ _ _ _ _ _ _ HX Hy Hrun)
    as (_ & Hext & Hfresh & _ & EX & Hyc & (gen & U & r & Hgen & Hsvd & Hpi & _) &
        _ & Hidx & Hn).
  assert (∀ l l' a, l ∈ dom (heap w) → l' ∉ dom (heap w) →
                    <[l' := a]> (heap w') !!! l = heap w !!! l) as Hwrite.
  { intros l l' a Hl Hl'. rewrite lookup_total_insert_ne by (intros ->; done).
    by apply Hext. }
  split; [done|]. split; [done|]. split; [by apply Hext|].
  split; [intros a; by apply Hwrite|].
  split; [|split; [|done]].
  - destruct y as [ly|]; [|done].
    destruct Hyc as (lc & Ey & Hlc & Hne & _ & Elc). exists lc.
    pose proof (Hy ly eq_refl) as Hly.
    split; [done|]. split; [done|]. split; [done|]. split; [done|].
    split; [by apply Hext|]. repeat split; intros a; by apply Hwrite.
  - exists gen, U, r. by rewrite EX.
Qed.

End FreshStart.

(** Membership of a reference in a concrete store, by evaluation. *)
Ltac allocated := apply (bool_decide_unpack _); vm_compute; exact I.

(** A computation on concrete inputs returned, by evaluation. *)
Ltac returned := apply is_ok_out; vm_compute; reflexivity.

(** C8 at a fresh start on the identity with a target: the working matrix
    is a new object that holds the identity. *)
Lemma init_greedy_search_copies_witness :
  let r := CUR._init_greedy_search (Exact.cur 2 None true 1 SeedNone) 0
             (Some 1) 2 (Exact.world2 0) in
  is_ok r = true ∧
  (X_current (out r).1 ∉ dom (heap (Exact.world2 0))) ∧
  heap (out r).2 !!! X_current (out r).1 = heap (Exact.world2 0) !!! 0.
Proof.
  intros r. split; [vm_compute; reflexivity|].
  destruct (init_greedy_search_copies (Exact.cur 2 None true 1 SeedNone) 0
              (Some 1) 2 (Exact.world2 0) (out r).1 (out r).2)
    as (Hnew & Hsame & _).
  - allocated.
  - intros ly [= <-]. allocated.
  - returned.
  - split; [exact Hnew | exact Hsame].
Defined.

(** Against C9 as stated: a configured rank of 0 is accepted by the
    constructor, and the fresh start signals no error: it calls the
    decomposition with [n_components = 0] and, the decomposition returning
    a [U] without columns, returns the importance vector of zeros. *)
Lemma rank_zero_is_scored :
  k (Exact.cur 2 None true 0 (SeedInt 0)) = 0%Z ∧
  importance (CUR._init_greedy_search (Exact.cur 2 None true 0 (SeedInt 0))
                0 None 2 (Exact.world2 0)) = Some [0; 0]%Q.
Proof. split; [reflexivity|]. vm_compute. reflexivity. Qed.

(** C5 at the identity with rank 1 and the global generator in state 1:
    the decomposition returns the second column, and the scores are
    [0] and [1]. *)
Lemma compute_pi_sum_of_squares_witness :
  let r := CUR._compute_pi (Exact.cur 2 None true 1 SeedNone) Exact.eye2 None
             (Exact.world2 1) in
  is_ok r = true ∧
  (out r).1 = [0; 1]%Q ∧
  ∀ i x, (out r).1 !! i = Some x → (0 <= x)%Q.
Proof.
  intros r. split; [vm_compute; reflexivity|].
  split; [vm_compute; reflexivity|].
  destruct (compute_pi_sum_of_squares (Exact.cur 2 None true 1 SeedNone)
              Exact.eye2 None (Exact.world2 1) (out r).1 (out r).2)
    as (gen & U & r' & _ & _ & _ & Hnonneg & _).
  - returned.
  - exact Hnonneg.
Defined.

(** ** Continued start *)

Section ContinuedStart.
Context `{Collaborators}.

(** C3 (amended): on a continued start the working matrix is the
    orthogonalization of the input against the selected rows; the working
    target is re-derived exactly when the selector holds a working target
    from the earlier stage, and then from that stored working target (not
    from the target passed in), with tolerance [1e-12] and against the new
    working matrix; the importance vector is then computed on the
    orthogonalized working matrix. *)
Theorem continue_greedy_search_rederives (self : selector) X y n w s w' :
  (∀ yc, y_current self = Some yc → yc ∈ dom (heap w)) →
  CUR._continue_greedy_search self X y n w = Ok (s, w') →
  ∃ Xo,
    X_orthogonalizer (T (heap w !!! X)) None (Some (T (X_selected_ self))) None
    = Ok Xo ∧
    heap w' !!! X_current s = T Xo ∧
    match y_current self with
    | Some yc =>
        ∃ y' l,
          Y_sample_orthogonalizer (heap w !!! yc) (T Xo) (y_selected_ self)
            (X_selected_ self) tol_1e_12 = Ok y' ∧
          y_current s = Some l ∧ heap w' !!! l = y'
    | None => y_current s = None
    end ∧
    ∃ gen U r,
      check_random_state (random_state self) = Ok gen ∧
      randomized_svd (T Xo) (k self) (iterated_power self) true
        (generator_state gen w)
      = Ok (U, r) ∧
      pi_ s = new_pi U (k self).
Proof.
  intros Hyc Hrun.
  destruct (continue_greedy_search_post _ _ _ _ _ _ _ Hyc Hrun)
    as (_ & _ & _ & _ & Xo & HXo & EX & Hy & gen & U & r & Hgen & Hsvd & Hpi & _).
  exists Xo. split; [done|]. split; [done|]. split.
  - destruct (y_current self) as [yc|]; [|done].
    destruct Hy as (y' & l & ? & ? & ? & ?). by exists y', l.
  - by exists gen, U, r.
Qed.

End ContinuedStart.

Section ContinuedStartExamples.
#[local] Existing Instance Exact.collaborators.

(** C3 (amended) at the continued start on the first stage fitted with a
    target. *)
Lemma continue_greedy_search_rederives_witness :
  let s1 := (out (Exact.first_stage (Some 1))).1 in
  let w1 := (out (Exact.first_stage (Some 1))).2 in
  let r := CUR._continue_greedy_search s1 0 (Some 1) 2 w1 in
  is_ok (Exact.first_stage (Some 1)) = true ∧
  is_ok r = true ∧
  ∃ Xo,
    X_orthogonalizer (T (heap w1 !!! 0)) None (Some (T (X_selected_ s1))) None
    = Ok Xo ∧
    heap (out r).2 !!! X_current (out r).1 = T Xo.
Proof.
  intros s1 w1 r. split; [vm_compute; reflexivity|].
  split; [vm_compute; reflexivity|].
  destruct (continue_greedy_search_rederives s1 0 (Some 1) 2 w1
              (out r).1 (out r).2) as (Xo & HXo & EX & _).
  - intros yc Hyc.
    assert (yc = 4) as -> by (vm_compute in Hyc; congruence).
    allocated.
  - returned.
  - exists Xo. split; [exact HXo | exact EX].
Defined.

(** Against C3 as stated: a first stage fitted without a target leaves no
    working target, and a continued start that is given a target still
    has none; a first stage fitted with the target [[3]; [5]] leaves the
    working target [[0]; [5]], and the continued start given the target
    again re-derives from the stored one, where regressing the target
    itself would give [[3]; [5]]. *)
Lemma continued_start_ignores_target_argument :
  (let s1 := (out (Exact.first_stage None)).1 in
   let w1 := (out (Exact.first_stage None)).2 in
   is_ok (Exact.first_stage None) = true ∧
   heap w1 !! 1 = Some Exact.target2 ∧
   working_target (CUR._continue_greedy_search s1 0 (Some 1) 2 w1)
   = Some None) ∧
  (let s1 := (out (Exact.first_stage (Some 1))).1 in
   let w1 := (out (Exact.first_stage (Some 1))).2 in
   let r := CUR._continue_greedy_search s1 0 (Some 1) 2 w1 in
   working_target (Exact.first_stage (Some 1))
   = Some (Some (NDArray [[0]; [5]]%Q 1)) ∧
   working_target r = Some (Some (NDArray [[0]; [5]]%Q 1)) ∧
   Y_sample_orthogonalizer Exact.target2 (heap (out r).2 !!! X_current (out r).1)
     (y_selected_ s1) (X_selected_ s1) tol_1e_12
   = Ok (NDArray [[3]; [5]]%Q 1)).
Proof. repeat split; vm_compute; reflexivity. Qed.

End ContinuedStartExamples.

(** ** Post-selection update *)

Section Update.
Context `{Collaborators}.

(** C4: with [iterative = False] a post-selection update leaves the store,
    and so the working matrix and the working target, as they are, keeps
    the selector's references to them, and changes the importance vector
    only by writing zero at the selected index. *)
Theorem update_post_selection_non_iterative (self : selector) X y last w s' w' :
  iterative self = false →
  CUR._update_post_selection self X y last w = Ok (s', w') →
  w' = w ∧
  X_current s' = X_current self ∧
  y_current s' = y_current self ∧
  pi_ s' = <[last := 0%Q]> (pi_ self) ∧
  (∀ i, i ≠ last → pi_ s' !! i = pi_ self !! i).
Proof.
  intros Hit Hrun. unfold CUR._update_post_selection in Hrun.
  apply bind_Ok in Hrun as (g & ? & (-> & _)%greedy_update_post & Hrun).
  simpl in Hrun. rewrite Hit in Hrun.
  apply bind_Ok in Hrun as (s1 & ? & [-> ->]%ret_Ok & Hrun).
  apply bind_Ok in Hrun as (p & ? & [[Hlast ->]%setitem_Ok ->]%lift_Ok & Hrun).
  apply ret_Ok in Hrun as [-> ->]. simpl.
  repeat split. intros i Hi. by apply list_lookup_insert_ne.
Qed.

End Update.

Section UpdateExamples.
#[local] Existing Instance Exact.collaborators.

(** C4 at the first update of a non-iterative selector on the identity:
    sample 0 is selected and the importance vector [1; 0] becomes
    [0; 0]. *)
Lemma update_post_selection_non_iterative_witness :
  let self := Exact.cur 2 None false 1 SeedNone in
  let r0 := CUR._init_greedy_search self 0 (Some 1) 2 (Exact.world2 0) in
  let r := CUR._update_post_selection (out r0).1 0 (Some 1) 0 (out r0).2 in
  is_ok r0 = true ∧
  is_ok r = true ∧
  importance r0 = Some [1; 0]%Q ∧
  importance r = Some [0; 0]%Q ∧
  (out r).2 = (out r0).2 ∧
  X_current (out r).1 = X_current (out r0).1.
Proof.
  intros self r0 r. split; [vm_compute; reflexivity|].
  split; [vm_compute; reflexivity|].
  split; [vm_compute; reflexivity|].
  split; [vm_compute; reflexivity|].
  destruct (update_post_selection_non_iterative (out r0).1 0 (Some 1) 0
              (out r0).2 (out r).1 (out r).2) as (Hw & HX & _).
  - vm_compute. reflexivity.
  - returned.
  - split; [exact Hw | exact HX].
Defined.

End UpdateExamples.

Section UpdateImportance.
Context `{Collaborators}.

(** The iterative branch writes the importance vector through the
    eligibility mask only, whatever the store holds. *)
Lemma orthogonalize_and_rescore_pi (self : selector) last w s' w' :
  CUR.orthogonalize_and_rescore self last w = Ok (s', w') →
  selector_params s' = selector_params self ∧
  selector_super s' = selector_super self ∧
  ∃ vals, setitem_mask (pi_ self) (eligible_ self) vals = Ok (pi_ s').
Proof.
  intros Hrun. unfold CUR.orthogonalize_and_rescore in Hrun.
  apply bind_Ok in Hrun as (yc' & w1 & _ & Hrun).
  apply bind_Ok in Hrun as (Xc & ? & [-> ->]%deref_Ok & Hrun).
  apply bind_Ok in Hrun as (Xo & ? & [HXo ->]%lift_Ok & Hrun).
  apply bind_Ok in Hrun as (Xl & w2 & _ & Hrun).
  apply bind_Ok in Hrun as (? & ? & [-> ->]%deref_Ok & Hrun).
  apply bind_Ok in Hrun as (Xe & ? & [HXe ->]%lift_Ok & Hrun).
  apply bind_Ok in Hrun as (ye & w3 & _ & Hrun).
  apply bind_Ok in Hrun as (p & w4 & _ & Hrun).
  apply bind_Ok in Hrun as (p' & ? & [Hp' ->]%lift_Ok & Hrun).
  apply ret_Ok in Hrun as [-> ->]. simpl. eauto.
Qed.

(** What a post-selection update does to the mask and to the importance
    vector: the selected sample stops being eligible; entries of samples
    that are not eligible are kept, except that the entry of the selected
    sample becomes zero. *)
Lemma update_post_selection_pi (self : selector) X y last w s' w' :
  CUR._update_post_selection self X y last w = Ok (s', w') →
  selector_params s' = selector_params self ∧
  last < length (eligible_ self) ∧
  eligible_ s' = <[last := false]> (eligible_ self) ∧
  selected_idx_ s' = selected_idx_ self ++ [last] ∧
  ∃ p, pi_ s' = <[last := 0%Q]> p ∧
       last < length p ∧
       length p = length (pi_ self) ∧
       ∀ i, eligible_ s' !! i = Some false → p !! i = pi_ self !! i.
Proof.
  intros Hrun. unfold CUR._update_post_selection in Hrun.
  apply bind_Ok in Hrun as (g & ? & Hg & Hrun).
  apply greedy_update_post in Hg as (-> & Hlast & Hel & Hidx & _).
  apply bind_Ok in Hrun as (s1 & w1 & Hit & Hrun).
  apply bind_Ok in Hrun as (p' & ? & [[Hp ->]%setitem_Ok ->]%lift_Ok & Hrun).
  apply ret_Ok in Hrun as [-> ->]. simpl in *.
  destruct (iterative self).
  - apply orthogonalize_and_rescore_pi in Hit as (E1 & E2 & vals & Hmask).
    simpl in *. rewrite E1, E2. simpl.
    apply setitem_mask_Ok in Hmask as [Hlen Hkeep].
    do 4 (split; [done|]). by exists (pi_ s1).
  - apply ret_Ok in Hit as [-> ->]. simpl.
    do 4 (split; [done|]). by exists (pi_ self).
Qed.

End UpdateImportance.

(** ** Runs *)

Section Runs.
Context `{Collaborators}.

(** The post-selection updates of a run that picks [picks], in order. *)
Fixpoint run_updates (self : selector) (X : loc) (y : option loc)
    (picks : list nat) : M selector :=
  match picks with
  | [] => mret self
  | p :: picks' =>
      self' ← CUR._update_post_selection self X y p;
      run_updates self' X y picks'
  end.

Lemma run_updates_app self X y picks1 picks2 w s' w' :
  run_updates self X y (picks1 ++ picks2) w = Ok (s', w') →
  ∃ s1 w1, run_updates self X y picks1 w = Ok (s1, w1) ∧
           run_updates s1 X y picks2 w1 = Ok (s', w').
Proof.
  revert self w. induction picks1 as [|p picks1 IH]; intros self w; simpl.
  - intros Hrun. by exists self, w.
  - intros (s0 & w0 & Hup & Hrun)%bind_Ok.
    destruct (IH _ _ Hrun) as (s1 & w1 & H1 & H2).
    exists s1, w1. split; [|done].
    unfold mbind, M_bind. by rewrite Hup.
Qed.

(** A sample that is not eligible and has importance zero. *)
Definition retired (s : selector) (p : nat) : Prop :=
  eligible_ s !! p = Some false ∧ pi_ s !! p = Some 0%Q.

Lemma update_retires self X y last w s' w' :
  CUR._update_post_selection self X y last w = Ok (s', w') →
  retired s' last.
Proof.
  intros (_ & Hlast & Hel & _ & p & Hpi & Hp & _)%update_post_selection_pi.
  unfold retired. rewrite Hel, Hpi. split; by apply list_lookup_insert_eq.
Qed.

Lemma update_keeps_retired self X y last w s' w' p :
  CUR._update_post_selection self X y last w = Ok (s', w') →
  retired self p → retired s' p.
Proof.
  intros (_ & Hlast & Hel & _ & p0 & Hpi & Hp & _ & Hkeep)%update_post_selection_pi
    [Hp1 Hp2].
  assert (eligible_ s' !! p = Some false) as Hp'.
  { rewrite Hel. destruct (decide (p = last)) as [->|Hne].
    - by apply list_lookup_insert_eq.
    - by rewrite list_lookup_insert_ne. }
  split; [done|]. rewrite Hpi. destruct (decide (p = last)) as [->|Hne].
  - by apply list_lookup_insert_eq.
  - rewrite list_lookup_insert_ne by done. rewrite Hkeep by done. done.
Qed.

Lemma run_updates_keeps_retired self X y picks w s' w' p :
  run_updates self X y picks w = Ok (s', w') →
  retired self p → retired s' p.
Proof.
  revert self w. induction picks as [|q picks IH]; intros self w; simpl.
  - by intros [-> ->]%ret_Ok.
  - intros (s0 & w0 & Hup & Hrun)%bind_Ok Hp.
    eapply IH; [done|]. by eapply update_keeps_retired.
Qed.

Lemma run_updates_selected_idx self X y picks w s' w' :
  run_updates self X y picks w = Ok (s', w') →
  selected_idx_ s' = selected_idx_ self ++ picks.
Proof.
  revert self w. induction picks as [|q picks IH]; intros self w; simpl.
  - intros [-> ->]%ret_Ok. by rewrite app_nil_r.
  - intros (s0 & w0 & Hup & Hrun)%bind_Ok.
    rewrite (IH _ _ Hrun).
    apply update_post_selection_pi in Hup as (_ & _ & _ & -> & _).
    by rewrite <- app_assoc.
Qed.

(** The selection loop performs the updates of the picks it makes. *)
Lemma greedy_loop_run_updates j self X y w s' w' :
  GreedySelector.greedy_loop CUR.hooks j self X y w = Ok (s', w') →
  ∃ picks, length picks ≤ j ∧ run_updates self X y picks w = Ok (s', w').
Proof.
  revert self w. induction j as [|j IH]; intros self w; simpl.
  - intros [-> ->]%ret_Ok. by exists [].
  - destruct GreedySelector.best_candidate as [i|].
    + intros (s0 & w0 & Hup & Hrun)%bind_Ok.
      destruct (IH _ _ Hrun) as (picks & Hlen & Hpicks).
      exists (i :: picks). split; [simpl; lia|]. simpl.
      simpl in Hup. unfold mbind, M_bind. by rewrite Hup.
    + intros [-> ->]%ret_Ok. exists []. split; [simpl; lia | done].
Qed.

(** C2 (amended): in a run that makes the picks [picks1 ++ p :: picks2],
    after the update for [p] and after every later update the importance
    of [p] is zero, whatever [iterative] is; the selection loop, started
    from any selector and run for any number of iterations, ends with
    importance zero for every sample it picked; so at the end of a fresh
    fit every selected sample has importance zero, and at the end of a
    continued fit every sample selected after the continued start has. *)
Theorem selected_importance_is_zero :
  (∀ self X y picks1 p picks2 w s' w',
     run_updates self X y (picks1 ++ p :: picks2) w = Ok (s', w') →
     pi_ s' !! p = Some 0%Q) ∧
  (∀ j self X y w s' w',
     GreedySelector.greedy_loop CUR.hooks j self X y w = Ok (s', w') →
     ∃ picks,
       selected_idx_ s' = selected_idx_ self ++ picks ∧
       ∀ p, p ∈ picks → pi_ s' !! p = Some 0%Q) ∧
  (∀ (self : params) X y w s' w',
     CUR.fit self X y w = Ok (s', w') →
     ∀ p, p ∈ selected_idx_ s' → pi_ s' !! p = Some 0%Q) ∧
  (∀ (self : selector) X y w s' w',
     CUR.fit_warm_start self X y w = Ok (s', w') →
     ∃ picks,
       selected_idx_ s' = selected_idx_ self ++ picks ∧
       ∀ p, p ∈ picks → pi_ s' !! p = Some 0%Q).
Proof.
  assert (∀ self X y picks1 p picks2 w s' w',
            run_updates self X y (picks1 ++ p :: picks2) w = Ok (s', w') →
            pi_ s' !! p = Some 0%Q) as Hpick.
  { intros self X y picks1 p picks2 w s' w' Hrun.
    apply run_updates_app in Hrun as (s1 & w1 & _ & Hrun). simpl in Hrun.
    apply bind_Ok in Hrun as (s2 & w2 & Hup & Hrun).
    eapply run_updates_keeps_retired; [done|]. by eapply update_retires. }
  assert (∀ j self X y w s' w',
            GreedySelector.greedy_loop CUR.hooks j self X y w = Ok (s', w') →
            ∃ picks,
              selected_idx_ s' = selected_idx_ self ++ picks ∧
              ∀ p, p ∈ picks → pi_ s' !! p = Some 0%Q) as Hloop.
  { intros j self X y w s' w' (picks & _ & Hrun)%greedy_loop_run_updates.
    exists picks. split; [by eapply run_updates_selected_idx|].
    intros p (picks1 & picks2 & ->)%list_elem_of_split. by eapply Hpick. }
  split; [done|]. split; [done|]. split.
  - intros self X y w s' w' Hrun. unfold CUR.fit, GreedySelector.fit in Hrun.
    apply bind_Ok in Hrun as (? & ? & [-> ->]%deref_Ok & Hrun).
    apply bind_Ok in Hrun as (? & ? & [-> ->]%deref_opt_Ok & Hrun).
    apply bind_Ok in Hrun as (? & ? & [_ ->]%lift_Ok & Hrun).
    apply bind_Ok in Hrun as (n & ? & [_ ->]%lift_Ok & Hrun).
    apply bind_Ok in Hrun as (s0 & w0 & Hs0 & Hrun).
    apply Hloop in Hrun as (picks & Hidx & Hzero).
    assert (selected_idx_ s0 = []) as E.
    { simpl in Hs0.
      unfold CUR._init_greedy_search, GreedySelector._init_greedy_search in Hs0.
      inv_M. done. }
    rewrite E in Hidx. simpl in Hidx. by rewrite Hidx.
  - intros self X y w s' w' Hrun.
    unfold CUR.fit_warm_start, GreedySelector.fit_warm_start in Hrun.
    apply bind_Ok in Hrun as (? & ? & [-> ->]%deref_Ok & Hrun).
    apply bind_Ok in Hrun as (? & ? & [-> ->]%deref_opt_Ok & Hrun).
    apply bind_Ok in Hrun as (? & ? & [_ ->]%lift_Ok & Hrun).
    apply bind_Ok in Hrun as (n & ? & [_ ->]%lift_Ok & Hrun).
    apply bind_Ok in Hrun as (s0 & w0 & Hs0 & Hrun).
    apply Hloop in Hrun as (picks & Hidx & Hzero).
    assert (selected_idx_ s0 = selected_idx_ self) as E.
    { simpl in Hs0.
      unfold CUR._continue_greedy_search,
        GreedySelector._continue_greedy_search in Hs0.
      inv_M. done. }
    rewrite E in Hidx. by exists picks.
Qed.

End Runs.

Section RunsExamples.
#[local] Existing Instance Exact.collaborators.

(** C2 (amended) at the run of an iterative selector on the 3 x 3 identity
    that picks sample 0 and then sample 1: the importance of sample 0 is
    zero after both updates. *)
Lemma selected_importance_is_zero_witness :
  let self := Exact.cur 2 None true 1 SeedNone in
  let r0 := CUR._init_greedy_search self 0 None 2 (Exact.world3 0) in
  let r := run_updates (out r0).1 0 None ([] ++ 0 :: [1]) (out r0).2 in
  is_ok r = true ∧
  importance r = Some [0; 0; 1]%Q ∧
  pi_ (out r).1 !! 0 = Some 0%Q.
Proof.
  intros self r0 r. split; [vm_compute; reflexivity|].
  split; [vm_compute; reflexivity|].
  destruct selected_importance_is_zero as [Hpick _].
  apply (Hpick (out r0).1 0 None [] 0 [1] (out r0).2 (out r).1 (out r).2).
  returned.
Defined.

End RunsExamples.

Section ContinuedRunsExamples.
#[local] Existing Instance Complete.collaborators.

(** Against C2 as stated: a continued start computes the whole importance
    vector anew.  A selector with rank 2 and without [iterative] is fitted
    to the 2 x 2 identity for one sample: it selects sample 0 and leaves
    the importances [0] and [1].  After [n_samples_to_select] is set to 2,
    the continued start orthogonalizes the input against sample 0 and
    scores it with a complete set of singular vectors: sample 0, which is
    selected, has importance 1.  The continued fit then selects sample 1,
    and ends with importance 1 for the selected sample 0. *)
Lemma continued_start_rescores_selected :
  let stage1 :=
    CUR.fit (Exact.cur 1 None false 2 (SeedInt 0)) 0 None Complete.world2 in
  let self := Exact.set_n_samples_to_select 2 (out stage1).1 in
  let restart := CUR._continue_greedy_search self 0 None 2 (out stage1).2 in
  let stage2 := CUR.fit_warm_start self 0 None (out stage1).2 in
  (selected stage1 = Some [0] ∧ importance stage1 = Some [0; 1]%Q) ∧
  (working_matrix restart = Some (NDArray [[0; 0]; [0; 1]]%Q 2) ∧
   selected restart = Some [0] ∧ importance restart = Some [1; 1]%Q) ∧
  (selected stage2 = Some [0; 1] ∧ importance stage2 = Some [1; 0]%Q).
Proof. repeat split; vm_compute; reflexivity. Qed.

End ContinuedRunsExamples.

(** ** The length of the importance vector *)

Section Lengths.
Context `{Collaborators}.

Lemma init_greedy_search_pi (self : params) X y n w s w' :
  CUR._init_greedy_search self X y n w = Ok (s, w') →
  ∃ gen U r,
    check_random_state (random_state self) = Ok gen ∧
    randomized_svd (heap w !!! X) (k self) (iterated_power self) true
      (generator_state gen w)
    = Ok (U, r) ∧
    pi_ s = new_pi U (k self).
Proof.
  unfold CUR._init_greedy_search, GreedySelector._init_greedy_search, copy.
  unfold mbind, M_bind, deref, alloc, mret, M_ret. simpl.
  set (l1 := fresh (dom (heap w))).
  set (h1 := <[l1 := heap w !!! X]> (heap w)).
  assert (h1 !!! l1 = heap w !!! X) as E1 by apply lookup_total_insert_eq.
  destruct w as [h r gs]. simpl in *.
  destruct y as [ly|]; simpl; rewrite compute_pi_eq; simpl;
    (destruct check_random_state as [gen|e]; [|done]).
  - set (l2 := fresh (dom h1)).
    assert (l2 ≠ l1) as Hne.
    { intros E. apply (is_fresh (dom h1)). fold l2. rewrite E.
      subst h1. set_solver. }
    rewrite lookup_total_insert_ne, E1 by done.
    rewrite (generator_state_heap _ (<[l2 := _]> h1) h).
    destruct randomized_svd as [[U r']|e] eqn:Hsvd; simpl; [|done].
    intros [= <- _]. by exists gen, U, r'.
  - rewrite E1, (generator_state_heap _ h1 h).
    destruct randomized_svd as [[U r']|e] eqn:Hsvd; simpl; [|done].
    intros [= <- _]. by exists gen, U, r'.
Qed.

Lemma continue_greedy_search_pi (self : selector) X y n w s w' :
  CUR._continue_greedy_search self X y n w = Ok (s, w') →
  ∃ Xo gen U r,
    X_orthogonalizer (T (heap w !!! X)) None (Some (T (X_selected_ self))) None
    = Ok Xo ∧
    check_random_state (random_state self) = Ok gen ∧
    randomized_svd (T Xo) (k self) (iterated_power self) true
      (generator_state gen w)
    = Ok (U, r) ∧
    pi_ s = new_pi U (k self).
Proof.
  intros Hrun. unfold CUR._continue_greedy_search in Hrun.
  apply bind_Ok in Hrun as (? & ? & [-> ->]%deref_Ok & Hrun).
  apply bind_Ok in Hrun as (Xo & ? & [HXo ->]%lift_Ok & Hrun).
  apply bind_Ok in Hrun as (Xl & ? & [HXl ->]%alloc_Ok & Hrun).
  set (w1 := World _ _ _) in Hrun.
  assert (Xl ∈ dom (heap w1)) as HXl1 by (simpl; set_solver).
  assert (heap w1 !!! Xl = T Xo) as EXl by apply lookup_total_insert_eq.
  apply bind_Ok in Hrun
    as (yl & w2 & (Hext2 & Hg2 & _)%regress_target_post & Hrun).
  destruct (Hext2 _ HXl1) as [HXl2 EXl2].
  apply bind_Ok in Hrun as (? & ? & [-> ->]%deref_Ok & Hrun).
  apply bind_Ok in Hrun as (? & ? & [-> ->]%deref_opt_Ok & Hrun).
  apply bind_Ok in Hrun
    as (p & w3 & (_ & gen & U & r & Hgen & Hsvd & -> & _)%compute_pi_post & Hrun).
  unfold GreedySelector._continue_greedy_search in Hrun.
  inv_M. simpl. exists Xo, gen, U, r. split; [done|]. split; [done|].
  split; [|done].
  rewrite EXl2, EXl in Hsvd.
  by rewrite (generator_state_gens _ w2 w) in Hsvd by by rewrite Hg2.
Qed.

Lemma run_updates_length self X y picks w s' w' :
  run_updates self X y picks w = Ok (s', w') →
  length (pi_ s') = length (pi_ self).
Proof.
  revert self w. induction picks as [|q picks IH]; intros self w; simpl.
  - by intros [-> ->]%ret_Ok.
  - intros (s0 & w0 & Hup & Hrun)%bind_Ok. rewrite (IH _ _ Hrun).
    apply update_post_selection_pi in Hup as (_ & _ & _ & _ & p & -> & _ & <- & _).
    apply length_insert.
Qed.

Context `{!CollaboratorsShape}.

(** C7: given the shape contracts of the collaborators, the importance
    vector has one entry per sample of the input after a fresh start and
    after a continued start; a post-selection update and the selection
    loop, for any number of iterations, keep its length; so it has one
    entry per sample at the end of a fresh and of a continued fit. *)
Theorem importance_length :
  (∀ (self : params) X y n w s w',
     CUR._init_greedy_search self X y n w = Ok (s, w') →
     length (pi_ s) = len (heap w !!! X)) ∧
  (∀ (self : selector) X y n w s w',
     CUR._continue_greedy_search self X y n w = Ok (s, w') →
     length (pi_ s) = len (heap w !!! X)) ∧
  (∀ (self : selector) X y last w s' w',
     CUR._update_post_selection self X y last w = Ok (s', w') →
     length (pi_ s') = length (pi_ self)) ∧
  (∀ j (self : selector) X y w s' w',
     GreedySelector.greedy_loop CUR.hooks j self X y w = Ok (s', w') →
     length (pi_ s') = length (pi_ self)) ∧
  (∀ (self : params) X y w s w',
     CUR.fit self X y w = Ok (s, w') →
     length (pi_ s) = len (heap w !!! X)) ∧
  (∀ (self : selector) X y w s w',
     CUR.fit_warm_start self X y w = Ok (s, w') →
     length (pi_ s) = len (heap w !!! X)).
Proof.
  assert (∀ (self : params) X y n w s w',
            CUR._init_greedy_search self X y n w = Ok (s, w') →
            length (pi_ s) = len (heap w !!! X)) as Hinit.
  { intros self X y n w s w' (gen & U & r & _ & Hsvd & ->)%init_greedy_search_pi.
    rewrite length_new_pi. by eapply randomized_svd_len. }
  assert (∀ (self : selector) X y n w s w',
            CUR._continue_greedy_search self X y n w = Ok (s, w') →
            length (pi_ s) = len (heap w !!! X)) as Hcont.
  { intros self X y n w s w'
      (Xo & gen & U & r & HXo & _ & Hsvd & ->)%continue_greedy_search_pi.
    rewrite length_new_pi, (randomized_svd_len _ _ _ _ _ _ _ Hsvd), len_T.
    apply X_orthogonalizer_shape in HXo as [_ ->]. apply ncols_T. }
  assert (∀ j (self : selector) X y w s' w',
            GreedySelector.greedy_loop CUR.hooks j self X y w = Ok (s', w') →
            length (pi_ s') = length (pi_ self)) as Hloop.
  { intros j self X y w s' w' (picks & _ & Hrun)%greedy_loop_run_updates.
    by eapply run_updates_length. }
  split; [done|]. split; [done|]. split.
  { intros self X y last w s' w'
      (_ & _ & _ & _ & p & -> & _ & <- & _)%update_post_selection_pi.
    apply length_insert. }
  split; [done|]. split.
  - intros self X y w s w' Hrun. unfold CUR.fit, GreedySelector.fit in Hrun.
    apply bind_Ok in Hrun as (? & ? & [-> ->]%deref_Ok & Hrun).
    apply bind_Ok in Hrun as (? & ? & [-> ->]%deref_opt_Ok & Hrun).
    apply bind_Ok in Hrun as (? & ? & [_ ->]%lift_Ok & Hrun).
    apply bind_Ok in Hrun as (n & ? & [_ ->]%lift_Ok & Hrun).
    apply bind_Ok in Hrun as (s0 & w0 & Hs0 & Hrun).
    rewrite (Hloop _ _ _ _ _ _ _ Hrun). exact (Hinit _ _ _ _ _ _ _ Hs0).
  - intros self X y w s w' Hrun.
    unfold CUR.fit_warm_start, GreedySelector.fit_warm_start in Hrun.
    apply bind_Ok in Hrun as (? & ? & [-> ->]%deref_Ok & Hrun).
    apply bind_Ok in Hrun as (? & ? & [-> ->]%deref_opt_Ok & Hrun).
    apply bind_Ok in Hrun as (? & ? & [_ ->]%lift_Ok & Hrun).
    apply bind_Ok in Hrun as (n & ? & [_ ->]%lift_Ok & Hrun).
    apply bind_Ok in Hrun as (s0 & w0 & Hs0 & Hrun).
    rewrite (Hloop _ _ _ _ _ _ _ Hrun). exact (Hcont _ _ _ _ _ _ _ Hs0).
Qed.

End Lengths.

(** The exact collaborators meet the shape contracts. *)
Lemma length_foldl_project_out (us rs : list (list Q)) :
  length (foldl (λ rs u, map (Exact.project_out u) rs) rs us) = length rs.
Proof.
  revert rs. induction us as [|u us IH]; intros rs; simpl; [done|].
  by rewrite IH, length_map.
Qed.

#[export] Instance exact_shape : CollaboratorsShape (H := Exact.collaborators).
Proof.
  split; simpl.
  - intros M n_components n_iter flip_sign s U s'.
    unfold Exact.randomized_svd. intros [= <- _].
    unfold len. simpl. by rewrite length_map.
  - intros x1 c x2 tol r. unfold Exact.X_orthogonalizer.
    destruct c as [c|]; [|destruct x2 as [x2|]; [|done]].
    + destruct (rows (T x1) !! c) as [u|]; [|done]. intros [= <-].
      rewrite len_T, ncols_T. simpl. split; [done|].
      unfold len. simpl. by rewrite !length_map, length_seq.
    + intros [= <-]. rewrite len_T, ncols_T. simpl. split; [done|].
      unfold len. simpl.
      by rewrite length_foldl_project_out, length_map, length_seq.
  - intros y X y_ref X_ref tol r. unfold Exact.Y_sample_orthogonalizer.
    destruct y_ref as [y_ref|]; [|done]. intros [= <-].
    unfold len. simpl. by rewrite length_imap.
Qed.

Section LengthsExamples.
#[local] Existing Instance Exact.collaborators.

(** C7 at a fit of two samples of the identity with a target: the
    importance vector has two entries at the end. *)
Lemma importance_length_witness :
  let r := CUR.fit (Exact.cur 2 None true 1 SeedNone) 0 (Some 1)
             (Exact.world2 0) in
  is_ok r = true ∧
  selected r = Some [0; 1] ∧
  length (pi_ (out r).1) = len (heap (Exact.world2 0) !!! 0).
Proof.
  intros r. split; [vm_compute; reflexivity|].
  split; [vm_compute; reflexivity|].
  destruct (importance_length (H := Exact.collaborators))
    as (_ & _ & _ & _ & Hfit & _).
  apply (Hfit (Exact.cur 2 None true 1 SeedNone) 0 (Some 1) (Exact.world2 0)
              (out r).1 (out r).2).
  returned.
Defined.

End LengthsExamples.

(** ** Reproducibility *)

Section Reproducibility.
Context `{Collaborators}.

(** Two outcomes agree: the same error, or the same value and the same
    arrays in the store. *)
Definition agree {A} (r1 r2 : result (A * world)) : Prop :=
  match r1, r2 with
  | Ok (a1, w1), Ok (a2, w2) => a1 = a2 ∧ heap w1 = heap w2
  | Raise e1, Raise e2 => e1 = e2
  | _, _ => False
  end.

(** A computation whose outcome does not depend on the state of the
    generators of the store. *)
Definition generator_free {A} (m : M A) : Prop :=
  ∀ w1 w2, heap w1 = heap w2 → agree (m w1) (m w2).

Lemma generator_free_ret {A} (a : A) : generator_free (mret a).
Proof. by intros w1 w2 Hh. Qed.

Lemma generator_free_bind {A B} (m : M A) (f : A → M B) :
  generator_free m → (∀ a, generator_free (f a)) → generator_free (m ≫= f).
Proof.
  intros Hm Hf w1 w2 Hh. specialize (Hm w1 w2 Hh).
  unfold mbind, M_bind, agree in *.
  destruct (m w1) as [[a1 w1']|e1], (m w2) as [[a2 w2']|e2]; try done.
  destruct Hm as [-> Hh']. by apply Hf.
Qed.

Lemma generator_free_lift {A} (r : result A) : generator_free (lift r).
Proof. intros w1 w2 Hh. unfold lift, agree. by destruct r. Qed.

Lemma generator_free_deref l : generator_free (deref l).
Proof. intros w1 w2 Hh. unfold deref, agree. by rewrite Hh. Qed.

Lemma generator_free_alloc a : generator_free (alloc a).
Proof. intros w1 w2 Hh. unfold alloc, agree. simpl. by rewrite Hh. Qed.

(** With an integer seed every call of [_compute_pi] builds its own
    generator, or rejects the seed. *)
Lemma generator_free_compute_pi (self : params) n X y :
  random_state self = SeedInt n → generator_free (CUR._compute_pi self X y).
Proof.
  intros Hseed w1 w2 Hh. rewrite !compute_pi_eq, Hseed. simpl.
  case_decide; [|done]. simpl.
  destruct randomized_svd as [[U r]|e]; simpl; done.
Qed.

Ltac generator_free :=
  repeat first
    [ eapply generator_free_compute_pi; eassumption
    | apply generator_free_ret
    | apply generator_free_lift
    | apply generator_free_deref
    | apply generator_free_alloc
    | apply generator_free_bind; [|intros ?]
    | match goal with
      | |- generator_free (match ?x with _ => _ end) => destruct x
      end ].

Lemma generator_free_deref_opt l : generator_free (deref_opt l).
Proof. unfold deref_opt. generator_free. Qed.

Lemma generator_free_copy l : generator_free (copy l).
Proof. unfold copy. generator_free. Qed.

Lemma generator_free_init (self : params) n X y n_to_select :
  random_state self = SeedInt n →
  generator_free (CUR._init_greedy_search self X y n_to_select).
Proof.
  intros Hseed.
  unfold CUR._init_greedy_search, GreedySelector._init_greedy_search,
    deref_opt, copy.
  generator_free.
Qed.

Lemma generator_free_continue (self : selector) n X y n_to_select :
  random_state self = SeedInt n →
  generator_free (CUR._continue_greedy_search self X y n_to_select).
Proof.
  intros Hseed.
  unfold CUR._continue_greedy_search, GreedySelector._continue_greedy_search,
    deref_opt.
  generator_free.
Qed.

Lemma generator_free_update (self : selector) n X y last :
  random_state self = SeedInt n →
  generator_free (CUR._update_post_selection self X y last).
Proof.
  intros Hseed.
  unfold CUR._update_post_selection, GreedySelector._update_post_selection,
    CUR.orthogonalize_and_rescore.
  generator_free.
Qed.

Lemma generator_free_bind_Ok {A B} (m : M A) (f : A → M B) :
  generator_free m →
  (∀ a w w', m w = Ok (a, w') → generator_free (f a)) →
  generator_free (m ≫= f).
Proof.
  intros Hm Hf w1 w2 Hh. specialize (Hm w1 w2 Hh).
  unfold mbind, M_bind, agree in *.
  destruct (m w1) as [[a1 w1']|e1] eqn:E1, (m w2) as [[a2 w2']|e2];
    try done.
  destruct Hm as [-> Hh']. by eapply Hf.
Qed.

Lemma generator_free_greedy_loop j (self : selector) n X y :
  random_state self = SeedInt n →
  generator_free (GreedySelector.greedy_loop CUR.hooks j self X y).
Proof.
  revert self. induction j as [|j IH]; intros self Hseed; simpl.
  - apply generator_free_ret.
  - destruct GreedySelector.best_candidate as [i|];
      [|apply generator_free_ret].
    apply generator_free_bind_Ok; [by eapply generator_free_update|].
    intros s' w w' (Hparams & _)%update_post_selection_pi.
    apply IH. by rewrite Hparams.
Qed.

Lemma generator_free_fit (self : params) n X y :
  random_state self = SeedInt n → generator_free (CUR.fit self X y).
Proof.
  intros Hseed. unfold CUR.fit, GreedySelector.fit, deref_opt.
  do 4 (apply generator_free_bind; [generator_free|intros ?]).
  apply generator_free_bind_Ok; [by eapply generator_free_init|].
  intros s w w' Hinit. simpl in Hinit.
  eapply generator_free_greedy_loop.
  unfold CUR._init_greedy_search in Hinit. inv_M. simpl. done.
Qed.

Lemma generator_free_fit_warm_start (self : selector) n X y :
  random_state self = SeedInt n →
  generator_free (CUR.fit_warm_start self X y).
Proof.
  intros Hseed.
  unfold CUR.fit_warm_start, GreedySelector.fit_warm_start, deref_opt.
  do 4 (apply generator_free_bind; [generator_free|intros ?]).
  apply generator_free_bind_Ok; [by eapply generator_free_continue|].
  intros s w w' Hcont. simpl in Hcont.
  eapply generator_free_greedy_loop.
  unfold CUR._continue_greedy_search, GreedySelector._continue_greedy_search
    in Hcont.
  inv_M. simpl. done.
Qed.

(** C6 (amended): with an integer [random_state], two fits of the same
    selector to the same stored input and target return the same
    outcome, the same selected indices in the same order and the same
    importance vector, whatever state the generators of the store are
    in; the same holds for a continued fit. *)
Theorem seeded_fit_is_reproducible :
  (∀ (self : params) n X y w1 w2,
     random_state self = SeedInt n →
     heap w1 = heap w2 →
     agree (CUR.fit self X y w1) (CUR.fit self X y w2) ∧
     selected (CUR.fit self X y w1) = selected (CUR.fit self X y w2) ∧
     importance (CUR.fit self X y w1) = importance (CUR.fit self X y w2)) ∧
  (∀ (self : selector) n X y w1 w2,
     random_state self = SeedInt n →
     heap w1 = heap w2 →
     agree (CUR.fit_warm_start self X y w1) (CUR.fit_warm_start self X y w2) ∧
     selected (CUR.fit_warm_start self X y w1)
     = selected (CUR.fit_warm_start self X y w2) ∧
     importance (CUR.fit_warm_start self X y w1)
     = importance (CUR.fit_warm_start self X y w2)).
Proof.
  assert (∀ r1 r2 : result (selector * world),
            agree r1 r2 →
            agree r1 r2 ∧ selected r1 = selected r2 ∧
            importance r1 = importance r2) as Hobs.
  { intros [[s1 w1]|e1] [[s2 w2]|e2] Hag; try done.
    split; [done|]. destruct Hag as [-> _]. done. }
  split.
  - intros self n X y w1 w2 Hseed Hh. apply Hobs.
    by eapply generator_free_fit.
  - intros self n X y w1 w2 Hseed Hh. apply Hobs.
    by eapply generator_free_fit_warm_start.
Qed.

End Reproducibility.

Section ReproducibilityExamples.
#[local] Existing Instance Exact.collaborators.

(** C6 (amended) at two fits with seed 0 to the identity, with the global
    generator in state 0 and in state 1. *)
Lemma seeded_fit_is_reproducible_witness :
  let self := Exact.cur 1 None false 1 (SeedInt 0) in
  selected (CUR.fit self 0 None (Exact.world2 0)) = Some [0] ∧
  selected (CUR.fit self 0 None (Exact.world2 0))
  = selected (CUR.fit self 0 None (Exact.world2 1)).
Proof.
  intros self. split; [vm_compute; reflexivity|].
  destruct (seeded_fit_is_reproducible (H := Exact.collaborators))
    as [Hfit _].
  destruct (Hfit self 0%Z 0 None (Exact.world2 0) (Exact.world2 1))
    as (_ & Hsel & _).
  - reflexivity.
  - reflexivity.
  - exact Hsel.
Defined.

(** Against C6 as stated: with [random_state = None] the decomposition
    draws from numpy's global generator.  Two fits of the same selector
    to the same identity matrix, without a target, select sample 0 when
    that generator is in state 0 and sample 1 when it is in state 1. *)
Lemma unseeded_fits_differ :
  let self := Exact.cur 1 None false 1 SeedNone in
  heap (Exact.world2 0) = heap (Exact.world2 1) ∧
  selected (CUR.fit self 0 None (Exact.world2 0)) = Some [0] ∧
  selected (CUR.fit self 0 None (Exact.world2 1)) = Some [1].
Proof.
  intros self. split; [reflexivity|]. split; vm_compute; reflexivity.
Qed.

End ReproducibilityExamples.

(** ** The target does not enter the scores *)

Section TargetIndependence.
Context `{Collaborators}.

(** Two selectors, each with its store, that agree on everything scoring
    and picking depend on: the configuration, the importance vector, the
    mask, the selected indices, the entries of the working matrix and the
    generators. *)
Definition same_scoring (s1 : selector) (w1 : world) (s2 : selector)
    (w2 : world) : Prop :=
  selector_params s1 = selector_params s2 ∧
  pi_ s1 = pi_ s2 ∧
  eligible_ s1 = eligible_ s2 ∧
  selected_idx_ s1 = selected_idx_ s2 ∧
  X_current s1 ∈ dom (heap w1) ∧
  X_current s2 ∈ dom (heap w2) ∧
  heap w1 !!! X_current s1 = heap w2 !!! X_current s2 ∧
  gens w1 = gens w2.

Lemma init_same_scoring (self : params) X y1 y2 n1 n2 w s1 w1 s2 w2 :
  X ∈ dom (heap w) →
  (∀ l, y1 = Some l → l ∈ dom (heap w)) →
  (∀ l, y2 = Some l → l ∈ dom (heap w)) →
  CUR._init_greedy_search self X y1 n1 w = Ok (s1, w1) →
  CUR._init_greedy_search self X y2 n2 w = Ok (s2, w2) →
  same_scoring s1 w1 s2 w2.
Proof.
  intros HX Hy1 Hy2 Hrun1 Hrun2.
  destruct (init_greedy_search_post _ _ _ _ _ _ _ HX Hy1 Hrun1)
    as (Hp1 & _ & _ & Hd1 & EX1 & _ & (g1 & U1 & r1 & Hgen1 & Hsvd1 & Hpi1 & Hg1) &
        Hel1 & Hidx1 & _).
  destruct (init_greedy_search_post _ _ _ _ _ _ _ HX Hy2 Hrun2)
    as (Hp2 & _ & _ & Hd2 & EX2 & _ & (g2 & U2 & r2 & Hgen2 & Hsvd2 & Hpi2 & Hg2) &
        Hel2 & Hidx2 & _).
  rewrite Hgen1 in Hgen2. injection Hgen2 as <-.
  rewrite Hsvd1 in Hsvd2. injection Hsvd2 as <- <-.
  unfold same_scoring. rewrite Hp1, Hp2, Hpi1, Hpi2, Hel1, Hel2, Hidx1, Hidx2,
    EX1, EX2, Hg1, Hg2. done.
Qed.

Lemma continue_same_scoring (self : selector) X y1 y2 n1 n2 w s1 w1 s2 w2 :
  (∀ yc, y_current self = Some yc → yc ∈ dom (heap w)) →
  CUR._continue_greedy_search self X y1 n1 w = Ok (s1, w1) →
  CUR._continue_greedy_search self X y2 n2 w = Ok (s2, w2) →
  same_scoring s1 w1 s2 w2.
Proof.
  intros Hyc Hrun1 Hrun2.
  destruct (continue_greedy_search_post _ _ _ _ _ _ _ Hyc Hrun1)
    as (Hp1 & Hs1 & _ & Hd1 & Xo1 & HXo1 & EX1 & _ &
        g1 & U1 & r1 & Hgen1 & Hsvd1 & Hpi1 & Hg1).
  destruct (continue_greedy_search_post _ _ _ _ _ _ _ Hyc Hrun2)
    as (Hp2 & Hs2 & _ & Hd2 & Xo2 & HXo2 & EX2 & _ &
        g2 & U2 & r2 & Hgen2 & Hsvd2 & Hpi2 & Hg2).
  rewrite HXo1 in HXo2. injection HXo2 as <-.
  rewrite Hgen1 in Hgen2. injection Hgen2 as <-.
  rewrite Hsvd1 in Hsvd2. injection Hsvd2 as <- <-.
  unfold same_scoring.
  rewrite Hp1, Hp2, Hs1, Hs2, Hpi1, Hpi2, EX1, EX2, Hg1, Hg2. done.
Qed.

Lemma update_same_scoring (s1 s2 : selector) X1 X2 y1 y2 last w1 w2
    s1' w1' s2' w2' :
  same_scoring s1 w1 s2 w2 →
  CUR._update_post_selection s1 X1 y1 last w1 = Ok (s1', w1') →
  CUR._update_post_selection s2 X2 y2 last w2 = Ok (s2', w2') →
  same_scoring s1' w1' s2' w2'.
Proof.
  intros (Hp & Hpi & Hel & Hidx & Hd1 & Hd2 & EX & Hg) Hrun1 Hrun2.
  destruct (update_post_selection_post _ _ _ _ _ _ _ Hd1 Hrun1)
    as (Hp1 & _ & Hel1 & Hidx1 & _ & _ & _ & Hd1' & Hit1).
  destruct (update_post_selection_post _ _ _ _ _ _ _ Hd2 Hrun2)
    as (Hp2 & _ & Hel2 & Hidx2 & _ & _ & _ & Hd2' & Hit2).
  assert (iterative s1 = iterative s2) as Eit by by rewrite Hp.
  unfold same_scoring.
  rewrite Hp1, Hp2, Hel1, Hel2, Hidx1, Hidx2, Hel, Hidx.
  split; [done|]. rewrite <- Eit in Hit2. destruct (iterative s1).
  - destruct Hit1 as (Xo1 & Xe1 & g1 & U1 & r1 & p1 & HXo1 & EX1 & HXe1 & Hgen1
                      & Hsvd1 & Hmask1 & _ & Hpi1 & Hg1).
    destruct Hit2 as (Xo2 & Xe2 & g2 & U2 & r2 & p2 & HXo2 & EX2 & HXe2 & Hgen2
                      & Hsvd2 & Hmask2 & _ & Hpi2 & Hg2).
    rewrite <- EX, HXo1 in HXo2. injection HXo2 as <-.
    rewrite <- Hel, HXe1 in HXe2. injection HXe2 as <-.
    rewrite <- Hp, Hgen1 in Hgen2. injection Hgen2 as <-.
    rewrite <- Hp, <- (generator_state_gens _ _ _ Hg), Hsvd1 in Hsvd2.
    injection Hsvd2 as <- <-.
    rewrite <- Hp, <- Hpi, <- Hel, Hmask1 in Hmask2. injection Hmask2 as <-.
    rewrite Hpi1, Hpi2, EX1, EX2, Hg1, Hg2.
    do 6 (split; [done|]). by apply gens_set_generator_state.
  - destruct Hit1 as (-> & -> & _ & _ & ->).
    destruct Hit2 as (-> & -> & _ & _ & ->).
    by rewrite Hpi.
Qed.

Lemma greedy_loop_same_scoring j (s1 s2 : selector) X1 X2 y1 y2 w1 w2
    s1' w1' s2' w2' :
  same_scoring s1 w1 s2 w2 →
  GreedySelector.greedy_loop CUR.hooks j s1 X1 y1 w1 = Ok (s1', w1') →
  GreedySelector.greedy_loop CUR.hooks j s2 X2 y2 w2 = Ok (s2', w2') →
  same_scoring s1' w1' s2' w2'.
Proof.
  revert s1 s2 w1 w2. induction j as [|j IH]; intros s1 s2 w1 w2 Hsame; simpl.
  - by intros [-> ->]%ret_Ok [-> ->]%ret_Ok.
  - unfold CUR.score.
    destruct Hsame as (Hp & Hpi & Hel & Hrest).
    rewrite <- Hp, <- Hpi, <- Hel.
    destruct GreedySelector.best_candidate as [i|].
    + intros (t1 & v1 & Hup1 & Hrun1)%bind_Ok (t2 & v2 & Hup2 & Hrun2)%bind_Ok.
      eapply IH; [|done..].
      by eapply (update_same_scoring s1 s2).
    + by intros [-> ->]%ret_Ok [-> ->]%ret_Ok.
Qed.

(** C10: two runs on the same store with the same selector and input
    that differ only in the target they are given (either may have none),
    and that both return: after a fresh start and any number of
    iterations of the selection loop, after a whole fit, and after a
    continued fit, they have the same importance vector, the same
    selected indices in the same order, and working matrices with the
    same entries. *)
Theorem target_does_not_influence_scores :
  (∀ (self : params) X y1 y2 n j w s1 w1 s2 w2,
     X ∈ dom (heap w) →
     (∀ l, y1 = Some l → l ∈ dom (heap w)) →
     (∀ l, y2 = Some l → l ∈ dom (heap w)) →
     (s ← CUR._init_greedy_search self X y1 n;
      GreedySelector.greedy_loop CUR.hooks j s X y1) w = Ok (s1, w1) →
     (s ← CUR._init_greedy_search self X y2 n;
      GreedySelector.greedy_loop CUR.hooks j s X y2) w = Ok (s2, w2) →
     pi_ s1 = pi_ s2 ∧
     selected_idx_ s1 = selected_idx_ s2 ∧
     heap w1 !!! X_current s1 = heap w2 !!! X_current s2) ∧
  (∀ (self : params) X y1 y2 w s1 w1 s2 w2,
     X ∈ dom (heap w) →
     (∀ l, y1 = Some l → l ∈ dom (heap w)) →
     (∀ l, y2 = Some l → l ∈ dom (heap w)) →
     CUR.fit self X y1 w = Ok (s1, w1) →
     CUR.fit self X y2 w = Ok (s2, w2) →
     pi_ s1 = pi_ s2 ∧
     selected_idx_ s1 = selected_idx_ s2 ∧
     heap w1 !!! X_current s1 = heap w2 !!! X_current s2) ∧
  (∀ (self : selector) X y1 y2 w s1 w1 s2 w2,
     (∀ yc, y_current self = Some yc → yc ∈ dom (heap w)) →
     CUR.fit_warm_start self X y1 w = Ok (s1, w1) →
     CUR.fit_warm_start self X y2 w = Ok (s2, w2) →
     pi_ s1 = pi_ s2 ∧
     selected_idx_ s1 = selected_idx_ s2 ∧
     heap w1 !!! X_current s1 = heap w2 !!! X_current s2).
Proof.
  assert (∀ s1 w1 s2 w2,
            same_scoring s1 w1 s2 w2 →
            pi_ s1 = pi_ s2 ∧ selected_idx_ s1 = selected_idx_ s2 ∧
            heap w1 !!! X_current s1 = heap w2 !!! X_current s2) as Hobs.
  { by intros s1 w1 s2 w2 (_ & ? & _ & ? & _ & _ & ? & _). }
  split; [|split].
  - intros self X y1 y2 n j w s1 w1 s2 w2 HX Hy1 Hy2
      (t1 & v1 & Hinit1 & Hloop1)%bind_Ok (t2 & v2 & Hinit2 & Hloop2)%bind_Ok.
    apply Hobs. eapply greedy_loop_same_scoring; [|done..].
    by eapply (init_same_scoring self X y1 y2).
  - intros self X y1 y2 w s1 w1 s2 w2 HX Hy1 Hy2 Hrun1 Hrun2.
    unfold CUR.fit, GreedySelector.fit in Hrun1, Hrun2.
    apply bind_Ok in Hrun1 as (? & ? & [-> ->]%deref_Ok & Hrun1).
    apply bind_Ok in Hrun1 as (? & ? & [-> ->]%deref_opt_Ok & Hrun1).
    apply bind_Ok in Hrun1 as (? & ? & [_ ->]%lift_Ok & Hrun1).
    apply bind_Ok in Hrun1 as (n1 & ? & [Hn1 ->]%lift_Ok & Hrun1).
    apply bind_Ok in Hrun1 as (t1 & v1 & Hinit1 & Hloop1).
    apply bind_Ok in Hrun2 as (? & ? & [-> ->]%deref_Ok & Hrun2).
    apply bind_Ok in Hrun2 as (? & ? & [-> ->]%deref_opt_Ok & Hrun2).
    apply bind_Ok in Hrun2 as (? & ? & [_ ->]%lift_Ok & Hrun2).
    apply bind_Ok in Hrun2 as (n2 & ? & [Hn2 ->]%lift_Ok & Hrun2).
    apply bind_Ok in Hrun2 as (t2 & v2 & Hinit2 & Hloop2).
    rewrite Hn1 in Hn2. injection Hn2 as <-. simpl in Hinit1, Hinit2.
    assert (n_selected_ t1 = 0 ∧ n_selected_ t2 = 0) as [E1 E2].
    { split.
      - by apply init_greedy_search_post in Hinit1 as (_ & _ & _ & _ & _ & _ & _ & _ & _ & ?).
      - by apply init_greedy_search_post in Hinit2 as (_ & _ & _ & _ & _ & _ & _ & _ & _ & ?). }
    rewrite E1 in Hloop1. rewrite E2 in Hloop2.
    apply Hobs. eapply greedy_loop_same_scoring; [|done..].
    by eapply (init_same_scoring self X y1 y2).
  - intros self X y1 y2 w s1 w1 s2 w2 Hyc Hrun1 Hrun2.
    unfold CUR.fit_warm_start, GreedySelector.fit_warm_start in Hrun1, Hrun2.
    apply bind_Ok in Hrun1 as (? & ? & [-> ->]%deref_Ok & Hrun1).
    apply bind_Ok in Hrun1 as (? & ? & [-> ->]%deref_opt_Ok & Hrun1).
    apply bind_Ok in Hrun1 as (? & ? & [_ ->]%lift_Ok & Hrun1).
    apply bind_Ok in Hrun1 as (n1 & ? & [Hn1 ->]%lift_Ok & Hrun1).
    apply bind_Ok in Hrun1 as (t1 & v1 & Hinit1 & Hloop1).
    apply bind_Ok in Hrun2 as (? & ? & [-> ->]%deref_Ok & Hrun2).
    apply bind_Ok in Hrun2 as (? & ? & [-> ->]%deref_opt_Ok & Hrun2).
    apply bind_Ok in Hrun2 as (? & ? & [_ ->]%lift_Ok & Hrun2).
    apply bind_Ok in Hrun2 as (n2 & ? & [Hn2 ->]%lift_Ok & Hrun2).
    apply bind_Ok in Hrun2 as (t2 & v2 & Hinit2 & Hloop2).
    rewrite Hn1 in Hn2. injection Hn2 as <-. simpl in Hinit1, Hinit2.
    assert (n_selected_ t1 = n_selected_ t2) as E.
    { apply continue_greedy_search_post in Hinit1 as (_ & -> & _); [|done].
      by apply continue_greedy_search_post in Hinit2 as (_ & -> & _). }
    rewrite E in Hloop1.
    apply Hobs. eapply greedy_loop_same_scoring; [|done..].
    by eapply (continue_same_scoring self X y1 y2).
Qed.

End TargetIndependence.

Section TargetIndependenceExamples.
#[local] Existing Instance Exact.collaborators.

(** C10 at the fits of two samples of the identity with the target
    [[3]; [5]] and without a target. *)
Lemma target_does_not_influence_scores_witness :
  let self := Exact.cur 2 None true 1 SeedNone in
  let r1 := CUR.fit self 0 (Some 1) (Exact.world2 0) in
  let r2 := CUR.fit self 0 None (Exact.world2 0) in
  is_ok r1 = true ∧
  is_ok r2 = true ∧
  selected r1 = Some [0; 1] ∧
  pi_ (out r1).1 = pi_ (out r2).1 ∧
  selected_idx_ (out r1).1 = selected_idx_ (out r2).1.
Proof.
  intros self r1 r2. split; [vm_compute; reflexivity|].
  split; [vm_compute; reflexivity|]. split; [vm_compute; reflexivity|].
  destruct (target_does_not_influence_scores (H := Exact.collaborators))
    as (_ & Hfit & _).
  destruct (Hfit self 0 (Some 1) None (Exact.world2 0)
              (out r1).1 (out r1).2 (out r2).1 (out r2).2)
    as (Hpi & Hidx & _).
  - allocated.
  - intros l [= <-]. allocated.
  - intros l [=].
  - returned.
  - returned.
  - split; [exact Hpi | exact Hidx].
Defined.

End TargetIndependenceExamples.

(** * Further properties of the hooks *)

(** ** The importance vector under an update *)

Section UpdateFrame.
Context `{Collaborators}.

(** The values the iterative branch writes through the mask are the
    scores of a decomposition of the eligible rows. *)
Lemma orthogonalize_and_rescore_scores (self : selector) last w s' w' :
  CUR.orthogonalize_and_rescore self last w = Ok (s', w') →
  ∃ Xc Xe gen U r w1,
    getitem_mask Xc (eligible_ self) = Ok Xe ∧
    check_random_state (random_state self) = Ok gen ∧
    randomized_svd Xe (k self) (iterated_power self) true
      (generator_state gen w1)
    = Ok (U, r) ∧
    setitem_mask (pi_ self) (eligible_ self) (new_pi U (k self))
    = Ok (pi_ s').
Proof.
  intros Hrun. unfold CUR.orthogonalize_and_rescore in Hrun.
  apply bind_Ok in Hrun as (yc' & w1 & _ & Hrun).
  apply bind_Ok in Hrun as (Xc & ? & [-> ->]%deref_Ok & Hrun).
  apply bind_Ok in Hrun as (Xo & ? & [HXo ->]%lift_Ok & Hrun).
  apply bind_Ok in Hrun as (Xl & w2 & _ & Hrun).
  apply bind_Ok in Hrun as (Xc' & ? & [-> ->]%deref_Ok & Hrun).
  apply bind_Ok in Hrun as (Xe & ? & [HXe ->]%lift_Ok & Hrun).
  apply bind_Ok in Hrun as (ye & w3 & _ & Hrun).
  apply bind_Ok in Hrun
    as (p & w4 & (gen & U & r & Hgen & Hsvd & -> & _)%compute_pi_Ok & Hrun).
  apply bind_Ok in Hrun as (p' & ? & [Hp' ->]%lift_Ok & Hrun).
  apply ret_Ok in Hrun as [-> ->]. simpl. eauto 12.
Qed.

(** X1: a returning update was given an index inside the importance vector;
    besides the entry at that index, which becomes zero, the update
    changes no entry of a sample that its mask marks as not eligible:
    with [iterative] the other entries that change are those of eligible
    samples, and without it none. *)
Theorem update_post_selection_frame (self : selector) X y last w s' w' :
  CUR._update_post_selection self X y last w = Ok (s', w') →
  last < length (pi_ self) ∧
  pi_ s' !! last = Some 0%Q ∧
  ∀ i, i ≠ last → eligible_ s' !! i = Some false →
       pi_ s' !! i = pi_ self !! i.
Proof.
  intros (_ & _ & _ & _ & p & -> & Hp & Hlen & Hkeep)%update_post_selection_pi.
  split; [lia|]. split; [by apply list_lookup_insert_eq|].
  intros i Hi Hel. rewrite list_lookup_insert_ne by done. by apply Hkeep.
Qed.

End UpdateFrame.

Section UpdateFrameExamples.
#[local] Existing Instance Exact.collaborators.

(** X1 at the first update of an iterative selector on the identity. *)
Lemma update_post_selection_frame_witness :
  let self := Exact.cur 2 None true 1 SeedNone in
  let r0 := CUR._init_greedy_search self 0 (Some 1) 2 (Exact.world2 0) in
  let r := CUR._update_post_selection (out r0).1 0 (Some 1) 0 (out r0).2 in
  is_ok r = true ∧
  importance r = Some [0; 1]%Q ∧
  0 < length (pi_ (out r0).1) ∧
  pi_ (out r).1 !! 0 = Some 0%Q.
Proof.
  intros self r0 r. split; [vm_compute; reflexivity|].
  split; [vm_compute; reflexivity|].
  destruct (update_post_selection_frame (out r0).1 0 (Some 1) 0 (out r0).2
              (out r).1 (out r).2) as (Hlt & Hzero & _).
  - returned.
  - split; [exact Hlt | exact Hzero].
Defined.

End UpdateFrameExamples.

(** ** Importance scores are never negative *)

Section NonNegative.
Context `{Collaborators}.

Lemma scatter_mask_Forall {A} (P : A → Prop) mask vals (l : list A) :
  Forall P vals → Forall P l → Forall P (scatter_mask mask vals l).
Proof.
  revert vals l. induction mask as [|b mask IH]; intros vals l Hvals Hl;
    [by destruct l|].
  destruct l as [|x l]; [done|]. inversion_clear Hl.
  destruct b; simpl.
  - destruct vals as [|v vals]; [|inversion_clear Hvals];
      constructor; try done; by apply IH.
  - constructor; [done|]. by apply IH.
Qed.

Lemma setitem_mask_Forall {A} (P : A → Prop) (a : list A) mask vals a' :
  setitem_mask a mask vals = Ok a' →
  Forall P vals → Forall P a → Forall P a'.
Proof.
  unfold setitem_mask. intros Hs Hvals Ha. repeat case_decide; try done.
  - injection Hs as <-. by apply scatter_mask_Forall.
  - destruct vals as [|v [|]]; try done. injection Hs as <-.
    apply scatter_mask_Forall; [|done].
    apply Forall_replicate. by inversion_clear Hvals.
Qed.

Lemma new_pi_Forall_nonneg U k : Forall (λ x, 0 <= x)%Q (new_pi U k).
Proof. apply Forall_lookup. intros i x. apply new_pi_nonneg. Qed.

(** X2: after a fresh and after a continued start every importance score is
    non-negative, and a post-selection update, a sequence of updates and
    the selection loop keep it so. *)
Theorem importance_is_nonnegative :
  (∀ (self : params) X y n w s w',
     CUR._init_greedy_search self X y n w = Ok (s, w') →
     Forall (λ x, 0 <= x)%Q (pi_ s)) ∧
  (∀ (self : selector) X y n w s w',
     CUR._continue_greedy_search self X y n w = Ok (s, w') →
     Forall (λ x, 0 <= x)%Q (pi_ s)) ∧
  (∀ (self : selector) X y last w s' w',
     CUR._update_post_selection self X y last w = Ok (s', w') →
     Forall (λ x, 0 <= x)%Q (pi_ self) →
     Forall (λ x, 0 <= x)%Q (pi_ s')) ∧
  (∀ j (self : selector) X y w s' w',
     GreedySelector.greedy_loop CUR.hooks j self X y w = Ok (s', w') →
     Forall (λ x, 0 <= x)%Q (pi_ self) →
     Forall (λ x, 0 <= x)%Q (pi_ s')).
Proof.
  assert (∀ (self : selector) X y last w s' w',
            CUR._update_post_selection self X y last w = Ok (s', w') →
            Forall (λ x, 0 <= x)%Q (pi_ self) →
            Forall (λ x, 0 <= x)%Q (pi_ s')) as Hupdate.
  { intros self X y last w s' w' Hrun Hpi.
    unfold CUR._update_post_selection in Hrun.
    apply bind_Ok in Hrun as (g & ? & _ & Hrun).
    apply bind_Ok in Hrun as (s1 & w1 & Hit & Hrun).
    apply bind_Ok in Hrun as (p' & ? & [[Hp ->]%setitem_Ok ->]%lift_Ok & Hrun).
    apply ret_Ok in Hrun as [-> ->]. simpl in *.
    apply Forall_insert; [|done].
    destruct (iterative self).
    - apply orthogonalize_and_rescore_scores in Hit
        as (Xc & Xe & gen & U & r & w2 & _ & _ & _ & Hmask). simpl in Hmask.
      eapply setitem_mask_Forall; [done| |done]. apply new_pi_Forall_nonneg.
    - by apply ret_Ok in Hit as [-> ->]. }
  split.
  { intros self X y n w s w' (gen & U & r & _ & _ & ->)%init_greedy_search_pi.
    apply new_pi_Forall_nonneg. }
  split.
  { intros self X y n w s w'
      (Xo & gen & U & r & _ & _ & _ & ->)%continue_greedy_search_pi.
    apply new_pi_Forall_nonneg. }
  split; [done|].
  intros j self X y w s' w' (picks & _ & Hrun)%greedy_loop_run_updates.
  revert self w Hrun. induction picks as [|q picks IH]; intros self w; simpl.
  - by intros [-> ->]%ret_Ok.
  - intros (s0 & w0 & Hup & Hrun)%bind_Ok Hpi.
    eapply IH; [done|]. by eapply Hupdate.
Qed.

End NonNegative.

Section NonNegativeExamples.
#[local] Existing Instance Exact.collaborators.

(** X2 at a fresh start on the identity followed by one update. *)
Lemma importance_is_nonnegative_witness :
  let self := Exact.cur 2 None true 1 SeedNone in
  let r0 := CUR._init_greedy_search self 0 (Some 1) 2 (Exact.world2 0) in
  let r := CUR._update_post_selection (out r0).1 0 (Some 1) 0 (out r0).2 in
  is_ok r0 = true ∧
  is_ok r = true ∧
  Forall (λ x, 0 <= x)%Q (pi_ (out r).1).
Proof.
  intros self r0 r. split; [vm_compute; reflexivity|].
  split; [vm_compute; reflexivity|].
  destruct (importance_is_nonnegative (H := Exact.collaborators))
    as (Hinit & _ & Hupdate & _).
  apply (Hupdate (out r0).1 0 (Some 1) 0 (out r0).2 (out r).1 (out r).2).
  - returned.
  - apply (Hinit self 0 (Some 1) 2 (Exact.world2 0) (out r0).1 (out r0).2).
    returned.
Defined.

End NonNegativeExamples.

(** ** Ranks at the edges *)

Section RankEdges.
Context `{Collaborators}.

Lemma sum_squares_all (row : list complex) (n : nat) :
  length row ≤ n →
  (leverage row n == leverage row (length row))%Q.
Proof.
  intros Hn. rewrite <- !sum_squares_take. by rewrite !take_ge by lia.
Qed.

(** X3: [U[:, :k]] at the edges of [k], whenever [_compute_pi] returns: with
    rank 0 no column is kept and every score is zero; with a rank that
    exceeds the number of columns of [U] every column is summed; with a
    negative rank no error is raised, the last [-k] columns of [U] are
    left out and the others are summed. *)
Theorem compute_pi_rank_edges (self : params) X y w p w' :
  CUR._compute_pi self X y w = Ok (p, w') →
  ∃ gen U r,
    check_random_state (random_state self) = Ok gen ∧
    randomized_svd X (k self) (iterated_power self) true
      (generator_state gen w)
    = Ok (U, r) ∧
    (k self = 0%Z → p = replicate (len U) 0%Q) ∧
    (∀ i row, rows U !! i = Some row → (Z.of_nat (length row) ≤ k self)%Z →
       ∃ x, p !! i = Some x ∧ (x == leverage row (length row))%Q) ∧
    (∀ i row, rows U !! i = Some row → (k self < 0)%Z →
       ∃ x, p !! i = Some x ∧
            (x == leverage row (length row - Z.to_nat (- k self)))%Q).
Proof.
  intros (gen & U & r & Hgen & Hsvd & -> & _)%compute_pi_Ok. exists gen, U, r.
  split; [done|]. split; [done|]. split; [|split].
  - intros Hk. rewrite Hk.
    unfold new_pi, sum_axis1, square, np_real, slice_cols, len. simpl.
    induction (rows U) as [|row l IH]; simpl; [done|]. by rewrite IH.
  - intros i row Hrow Hk. rewrite new_pi_lookup, Hrow. simpl.
    eexists. split; [done|].
    unfold slice_to. destruct (Z.ltb_spec (k self) 0); [lia|].
    rewrite sum_squares_take. apply sum_squares_all. lia.
  - intros i row Hrow Hk. rewrite new_pi_lookup, Hrow. simpl.
    eexists. split; [done|].
    unfold slice_to. destruct (Z.ltb_spec (k self) 0); [|lia].
    apply sum_squares_take.
Qed.

End RankEdges.

Section RankEdgesExamples.
#[local] Existing Instance Exact.collaborators.

(** X3 at the identity with rank 0. *)
Lemma compute_pi_rank_edges_witness :
  let self := Exact.cur 2 None true 0 SeedNone in
  let r := CUR._compute_pi self Exact.eye2 None (Exact.world2 0) in
  is_ok r = true ∧
  ∃ U : ndarray complex,
    (k self = 0%Z → (out r).1 = replicate (len U) 0%Q).
Proof.
  intros self r. split; [vm_compute; reflexivity|].
  destruct (compute_pi_rank_edges self Exact.eye2 None (Exact.world2 0)
              (out r).1 (out r).2) as (gen & U & r' & _ & _ & Hzero & _).
  - returned.
  - exists U. exact Hzero.
Defined.

End RankEdgesExamples.

(** ** Errors of a continued start *)

Section ContinuedStartErrors.
Context `{Collaborators}.

(** X4: the calls of a continued start fail in a fixed order, and each
    failure is the failure of the hook, before the skeleton's own
    continuation is reached: first the orthogonalization of the input
    against the selected rows; then, only if the selector holds a working
    target, the regression of that working target; then
    [check_random_state] on the configured seed; then the decomposition of
    the orthogonalized matrix.  When all of them return and the hook
    returns, the importance vector is the one computed from the
    decomposition. *)
Theorem continue_greedy_search_raises (self : selector) X y n w :
  (∀ yc, y_current self = Some yc → yc ∈ dom (heap w)) →
  match X_orthogonalizer (T (heap w !!! X)) None
          (Some (T (X_selected_ self))) None with
  | Raise e => CUR._continue_greedy_search self X y n w = Raise e
  | Ok Xo =>
      match
        match y_current self with
        | Some yc =>
            Y_sample_orthogonalizer (heap w !!! yc) (T Xo) (y_selected_ self)
              (X_selected_ self) tol_1e_12
        | None => Ok (T Xo)
        end
      with
      | Raise e => CUR._continue_greedy_search self X y n w = Raise e
      | Ok _ =>
          match check_random_state (random_state self) with
          | Raise e => CUR._continue_greedy_search self X y n w = Raise e
          | Ok gen =>
              match randomized_svd (T Xo) (k self) (iterated_power self) true
                      (generator_state gen w) with
              | Raise e => CUR._continue_greedy_search self X y n w = Raise e
              | Ok (U, _) =>
                  ∀ s w', CUR._continue_greedy_search self X y n w = Ok (s, w') →
                          pi_ s = new_pi U (k self)
              end
          end
      end
  end.
Proof.
  intros Hyc.
  unfold CUR._continue_greedy_search.
  unfold mbind, M_bind, deref, deref_opt, alloc, lift, mret, M_ret. simpl.
  destruct X_orthogonalizer as [Xo|e1]; simpl; [|done].
  set (l1 := fresh (dom (heap w))).
  assert (l1 ∉ dom (heap w)) as Hl1 by apply is_fresh.
  set (h1 := <[l1 := T Xo]> (heap w)).
  assert (h1 !!! l1 = T Xo) as E1 by apply lookup_total_insert_eq.
  destruct w as [h r gs]. simpl in *.
  destruct (y_current self) as [yc|] eqn:Ey; simpl.
  - unfold mbind, M_bind, deref. simpl.
    rewrite E1.
    assert (h1 !!! yc = h !!! yc) as ->.
    { apply lookup_total_alloc; [by apply Hyc | done]. }
    destruct Y_sample_orthogonalizer as [y'|e2]; simpl; [|done].
    set (l2 := fresh (dom h1)).
    assert (l2 ≠ l1) as Hne.
    { intros E. apply (is_fresh (dom h1)). fold l2. rewrite E.
      subst h1. set_solver. }
    rewrite compute_pi_eq. simpl.
    destruct check_random_state as [gen|e0]; [|done].
    rewrite lookup_total_insert_ne, E1 by done.
    rewrite (generator_state_heap _ (<[l2 := _]> h1) h).
    destruct randomized_svd as [[U r']|e3]; simpl; [|done].
    by intros s w' [= <- _].
  - rewrite compute_pi_eq. simpl.
    destruct check_random_state as [gen|e0]; [|done].
    rewrite E1, (generator_state_heap _ h1 h).
    destruct randomized_svd as [[U r']|e3]; simpl; [|done].
    by intros s w' [= <- _].
Qed.

End ContinuedStartErrors.

Section ContinuedStartErrorsExamples.
#[local] Existing Instance Exact.collaborators.

(** X4 at the continued start on the first stage fitted with a target,
    after [random_state] has been set to [-1]: both orthogonalizers return,
    the seed is rejected, and the hook raises [ValueError]. *)
Lemma continue_greedy_search_raises_witness :
  let s1 := (out (Exact.first_stage (Some 1))).1 in
  let w1 := (out (Exact.first_stage (Some 1))).2 in
  let self :=
    Selector (Params s1 (k s1) (iterative s1) (iterated_power s1)
                (SeedInt (-1)))
             s1 (X_current s1) (y_current s1) (pi_ s1) in
  is_ok (Exact.first_stage (Some 1)) = true ∧
  CUR._continue_greedy_search self 0 (Some 1) 2 w1 = Raise ValueError.
Proof.
  intros s1 w1 self. split; [vm_compute; reflexivity|].
  assert (∀ yc, y_current self = Some yc → yc ∈ dom (heap w1)) as Hyc.
  { intros yc Hyc.
    assert (yc = 4) as -> by (vm_compute in Hyc; congruence).
    allocated. }
  pose proof (continue_greedy_search_raises self 0 (Some 1) 2 w1 Hyc) as Hraise.
  vm_compute in Hraise. vm_compute. exact Hraise.
Defined.

End ContinuedStartErrorsExamples.

(** ** The iterative update *)

Section IterativeUpdate.
Context `{Collaborators}.

Lemma length_select_mask {A} mask (l : list A) :
  length mask = length l → length (select_mask mask l) = count_true mask.
Proof.
  unfold count_true. revert l.
  induction mask as [|b mask IH]; intros [|x l]; simpl; try done.
  intros [= Hlen]. destruct b.
  - rewrite filter_cons_True by done. simpl. by rewrite IH.
  - rewrite filter_cons_False by done. by apply IH.
Qed.

Lemma setitem_mask_Ok_length {A} (a : list A) mask vals a' :
  setitem_mask a mask vals = Ok a' →
  length vals = count_true mask ∨ length vals = 1.
Proof.
  unfold setitem_mask. intros Hs. repeat case_decide; try done.
  - by left.
  - destruct vals as [|v [|]]; try done. by right.
Qed.

(** X6: with [iterative] a returning update has called the decomposition on
    one row per sample that is still eligible after the pick, and the
    decomposition has returned as many rows of [U] as that, or a single
    row.  So when the pick was the last eligible sample, the update
    returns only if the decomposition accepts a matrix without rows. *)
Theorem update_rescores_eligible_rows (self : selector) X y last w s' w' :
  iterative self = true →
  CUR._update_post_selection self X y last w = Ok (s', w') →
  ∃ Xe gen U r w1,
    len Xe = count_true (eligible_ s') ∧
    check_random_state (random_state self) = Ok gen ∧
    randomized_svd Xe (k self) (iterated_power self) true
      (generator_state gen w1)
    = Ok (U, r) ∧
    (len U = count_true (eligible_ s') ∨ len U = 1).
Proof.
  intros Hiter Hrun. unfold CUR._update_post_selection in Hrun.
  apply bind_Ok in Hrun as (g & ? & _ & Hrun).
  simpl in Hrun. rewrite Hiter in Hrun.
  apply bind_Ok in Hrun as (s1 & w1 & Hit & Hrun).
  apply bind_Ok in Hrun as (p' & ? & [_ ->]%lift_Ok & Hrun).
  apply ret_Ok in Hrun as [-> ->]. simpl.
  pose proof Hit as (_ & Hsuper & _)%orthogonalize_and_rescore_pi.
  apply orthogonalize_and_rescore_scores in Hit
    as (Xc & Xe & gen & U & r & w2 & HXe & Hgen & Hsvd & Hmask).
  simpl in *. rewrite Hsuper.
  apply getitem_mask_Ok in HXe as [Hlen ->].
  apply setitem_mask_Ok_length in Hmask. rewrite length_new_pi in Hmask.
  eexists _, gen, U, r, w2. split; [|done].
  unfold len at 1. simpl. by apply length_select_mask.
Qed.

End IterativeUpdate.

Section IterativeUpdateExamples.
#[local] Existing Instance Exact.collaborators.

(** X6 at the first update of an iterative selector on the identity: one
    sample stays eligible. *)
Lemma update_rescores_eligible_rows_witness :
  let self := Exact.cur 2 None true 1 SeedNone in
  let r0 := CUR._init_greedy_search self 0 (Some 1) 2 (Exact.world2 0) in
  let r := CUR._update_post_selection (out r0).1 0 (Some 1) 0 (out r0).2 in
  is_ok r = true ∧
  count_true (eligible_ (out r).1) = 1 ∧
  ∃ Xe : ndarray Q, len Xe = count_true (eligible_ (out r).1).
Proof.
  intros self r0 r. split; [vm_compute; reflexivity|].
  split; [vm_compute; reflexivity|].
  destruct (update_rescores_eligible_rows (out r0).1 0 (Some 1) 0 (out r0).2
              (out r).1 (out r).2) as (Xe & gen & U & r' & w1 & Hlen & _).
  - vm_compute. reflexivity.
  - returned.
  - exists Xe. exact Hlen.
Defined.

End IterativeUpdateExamples.
